(** * votemaster: ranked-choice tallying (main.py)

    A shallow embedding of the parsing functions and of the three tallying
    engines of [main.py] (IRV, Borda, Condorcet), followed by the properties
    the specification states about them.

    Conventions of the embedding.
    - A Python [str] is a list of characters, [list ascii]; a character is its
      code point, so the model covers text whose code points are below 256.
      On that range [str.strip], [str.splitlines] and [int] are modelled
      exactly (white space is 9-13, 28-32, 133 and 160; the only decimal
      digits are 0-9).
    - A Python [int] is a [Z].  The only [float] is the quotient
      [total / 2] of the majority check: it is the exact quotient rounded
      to 53 significant bits, and is compared with an [int] exactly.
    - [dict], [Counter] and [defaultdict] keep insertion order, which the
      majority check of IRV observes: they are association lists with unique
      keys, new keys appended at the end.
    - An exception is a value of [exn]; a function that can raise returns a
      [result].
    - The [while] loop of [irv_winner] is iterated by a fuel counter; that
      the fuel suffices is a theorem, not part of the definition. *)

From Stdlib Require Import String.
From Stdlib Require Import List ZArith Lia Bool Ascii Permutation.
Import ListNotations.
Local Open Scope Z_scope.

(* ================================================================== *)
(** * Python values                                                    *)
(* ================================================================== *)

Definition str := list ascii.

(** A literal. *)
Definition py (s : string) : str := list_ascii_of_string s.

Definition str_eq_dec : forall a b : str, {a = b} + {a <> b} :=
  list_eq_dec ascii_dec.

Definition str_eqb (a b : str) : bool :=
  if str_eq_dec a b then true else false.

(** Truth value of a sequence: non-empty. *)
Definition truthy {A} (l : list A) : bool :=
  match l with [] => false | _ :: _ => true end.

(** [x in l] *)
Definition mem (x : str) (l : list str) : bool := existsb (str_eqb x) l.

(** The messages of the [ValueError]s raised in [main.py]; the last one is
    the one [list.remove] raises for an absent element. *)
Inductive message :=
| CandidatesNotUnique
| NoCandidates
| NoBallotLine
| BadFormat (idx : nat)
| InvalidCount (idx : nat)
| NonPositiveCount (idx : nat)
| DuplicateRanking (idx : nat)
| UnknownCandidates (idx : nat) (unknown : list str)
| NoValidBallot
| RemoveNotInList.

Inductive exn :=
| ValueError (m : message)
| OverflowError.

Inductive result (A : Type) :=
| Ok (a : A)
| Raise (e : exn).
Arguments Ok {A} a.
Arguments Raise {A} e.

(* ------------------------------------------------------------------ *)
(** ** str methods                                                     *)
(* ------------------------------------------------------------------ *)

Definition code (c : ascii) : N := N_of_ascii c.

(** [c.isspace()] *)
Definition is_space (c : ascii) : bool :=
  let n := code c in
  (((9 <=? n) && (n <=? 13)) || ((28 <=? n) && (n <=? 32))
   || (n =? 133) || (n =? 160))%N.

Fixpoint lstrip (s : str) : str :=
  match s with
  | [] => []
  | c :: s' => if is_space c then lstrip s' else s
  end.

Definition rstrip (s : str) : str := rev (lstrip (rev s)).

(** [s.strip()] *)
Definition strip (s : str) : str := rstrip (lstrip s).

(** [s.split(sep)] for a one-character separator: always at least one
    piece. *)
Fixpoint split (sep : ascii) (s : str) : list str :=
  match s with
  | [] => [[]]
  | c :: s' =>
      if Ascii.eqb c sep then [] :: split sep s'
      else match split sep s' with
           | [] => [[c]]
           | t :: ts => (c :: t) :: ts
           end
  end.

(** [sep.join(l)] *)
Fixpoint join (sep : ascii) (l : list str) : str :=
  match l with
  | [] => []
  | [x] => x
  | x :: rest => x ++ sep :: join sep rest
  end.

(** [s.replace(a, b)] for one-character [a] and [b]. *)
Definition replace (a b : ascii) (s : str) : str :=
  map (fun c => if Ascii.eqb c a then b else c) s.

(** [sep in s] *)
Definition contains (sep : ascii) (s : str) : bool :=
  existsb (Ascii.eqb sep) s.

(** [s.split(sep, 1)] when [sep in s]: the text before the first [sep] and
    the text after it. *)
Fixpoint split1 (sep : ascii) (s : str) : str * str :=
  match s with
  | [] => ([], [])
  | c :: s' =>
      if Ascii.eqb c sep then ([], s')
      else let '(l, r) := split1 sep s' in (c :: l, r)
  end.

(** Line boundaries of [str.splitlines]: LF, VT, FF, CR, FS, GS, RS, NEL. *)
Definition is_linebreak (c : ascii) : bool :=
  let n := code c in
  (((10 <=? n) && (n <=? 13)) || ((28 <=? n) && (n <=? 30)) || (n =? 133))%N.

(** [s.splitlines()]: [cur] is the current line, reversed.  CR LF is one
    boundary; no empty last line is produced. *)
Fixpoint splitlines_from (cur : str) (s : str) : list str :=
  match s with
  | [] => match cur with [] => [] | _ => [rev cur] end
  | c :: s' =>
      if is_linebreak c then
        rev cur ::
          match s' with
          | c2 :: s'' =>
              if ((code c =? 13) && (code c2 =? 10))%N
              then splitlines_from [] s''
              else splitlines_from [] s'
          | [] => splitlines_from [] s'
          end
      else splitlines_from (c :: cur) s'
  end.

Definition splitlines (s : str) : list str := splitlines_from [] s.

(* ------------------------------------------------------------------ *)
(** ** int(s)                                                          *)
(* ------------------------------------------------------------------ *)

Definition digit_value (c : ascii) : option Z :=
  let n := code c in
  if ((48 <=? n) && (n <=? 57))%N then Some (Z.of_N n - 48) else None.

(** Digits with single underscores between them; [prev] tells whether the
    previous character was a digit, [nd] counts the digits read. *)
Fixpoint int_digits (acc : Z) (nd : N) (prev : bool) (s : str)
  : option (Z * N) :=
  match s with
  | [] => if prev then Some (acc, nd) else None
  | c :: s' =>
      match digit_value c with
      | Some d => int_digits (10 * acc + d) (nd + 1) true s'
      | None =>
          if (code c =? 95)%N && prev then int_digits acc nd false s'
          else None
      end
  end.

(** [sys.get_int_max_str_digits()], the default. *)
Definition int_max_str_digits : N := 4300.

(** [int(s)]: [None] stands for [ValueError].  White space around, an
    optional sign, then the digits; more than [int_max_str_digits] digits
    are refused. *)
Definition py_int (s : str) : option Z :=
  let body (sign : Z) (ds : str) :=
    match int_digits 0 0 false ds with
    | Some (v, nd) =>
        if (int_max_str_digits <? nd)%N then None else Some (sign * v)
    | None => None
    end in
  match strip s with
  | c :: ds =>
      if (code c =? 43)%N then body 1 ds
      else if (code c =? 45)%N then body (-1) ds
      else body 1 (c :: ds)
  | [] => None
  end.

(** [len(set(l)) != len(l)] *)
Definition has_duplicates (l : list str) : bool :=
  negb (Nat.eqb (length (nodup str_eq_dec l)) (length l)).

(* ================================================================== *)
(** * Parsing                                                          *)
(* ================================================================== *)

Definition comma : ascii := ","%char.
Definition colon : ascii := ":"%char.
Definition greater : ascii := ">"%char.

(** [[c.strip() for c in pieces if c.strip()]] *)
Definition stripped_tokens (pieces : list str) : list str :=
  map strip (filter (fun c => truthy (strip c)) pieces).

Definition parse_candidates (raw : str) : result (list str) :=
  let candidates := stripped_tokens (split comma raw) in
  if has_duplicates candidates then Raise (ValueError CandidatesNotUnique)
  else if negb (truthy candidates) then Raise (ValueError NoCandidates)
  else Ok candidates.

Definition ballot : Type := Z * list str.

(** The ranking of a line: the text right of the colon, tokenised. *)
Definition ranking_of (ranking_text : str) : list str :=
  stripped_tokens (split comma (replace greater comma ranking_text)).

(** The body of the [for] loop of [parse_ballots] for one non-blank line. *)
Definition parse_line (idx : nat) (line : str) (candidates : list str)
  : result ballot :=
  if negb (contains colon line) then Raise (ValueError (BadFormat idx))
  else
    let '(count_text, ranking_text) := split1 colon line in
    match py_int (strip count_text) with
    | None => Raise (ValueError (InvalidCount idx))
    | Some count =>
        if count <=? 0 then Raise (ValueError (NonPositiveCount idx))
        else
          let ranking := ranking_of ranking_text in
          if has_duplicates ranking
          then Raise (ValueError (DuplicateRanking idx))
          else
            let unknown :=
              filter (fun c => negb (mem c candidates)) ranking in
            if truthy unknown
            then Raise (ValueError (UnknownCandidates idx unknown))
            else Ok (count, ranking)
    end.

(** The [for idx, line in enumerate(lines, start=idx)] loop. *)
Fixpoint parse_lines (idx : nat) (lines : list str) (candidates : list str)
    (ballots : list ballot) : result (list ballot) :=
  match lines with
  | [] => Ok ballots
  | line :: rest =>
      if negb (truthy (strip line))
      then parse_lines (S idx) rest candidates ballots
      else match parse_line idx line candidates with
           | Raise e => Raise e
           | Ok b => parse_lines (S idx) rest candidates (ballots ++ [b])
           end
  end.

Definition parse_ballots (raw : str) (candidates : list str)
  : result (list ballot) :=
  if negb (truthy (strip raw)) then Raise (ValueError NoBallotLine)
  else
    match parse_lines 1 (splitlines raw) candidates [] with
    | Raise e => Raise e
    | Ok ballots =>
        if negb (truthy ballots) then Raise (ValueError NoValidBallot)
        else Ok ballots
    end.

(* ================================================================== *)
(** * Counter                                                          *)
(* ================================================================== *)

Definition counter := list (str * Z).

(** [d[k]] and [d.get(k, 0)] on a [Counter]: 0 for a missing key, which is
    not stored. *)
Fixpoint counter_get (k : str) (d : counter) : Z :=
  match d with
  | [] => 0
  | (k', v) :: d' => if str_eqb k k' then v else counter_get k d'
  end.

(** [d[k] += n] *)
Fixpoint counter_add (k : str) (n : Z) (d : counter) : counter :=
  match d with
  | [] => [(k, 0 + n)]
  | (k', v) :: d' =>
      if str_eqb k k' then (k', v + n) :: d'
      else (k', v) :: counter_add k n d'
  end.

(** [d[k] = v] *)
Fixpoint counter_set (k : str) (v : Z) (d : counter) : counter :=
  match d with
  | [] => [(k, v)]
  | (k', v') :: d' =>
      if str_eqb k k' then (k', v) :: d'
      else (k', v') :: counter_set k v d'
  end.

(** [d.values()] *)
Definition values (d : counter) : list Z := map snd d.

(** [sum(l)] *)
Definition sum (l : list Z) : Z := fold_left Z.add l 0.

(* ================================================================== *)
(** * Instant runoff                                                   *)
(* ================================================================== *)

(** One entry of [rounds]: [(tally, total, list(remaining))]. *)
Record irv_round := mk_round {
  round_tally : counter;
  round_total : Z;
  round_remaining : list str
}.

(** The inner [for choice in ranking] loop: the first choice still in
    [remaining]. *)
Definition first_choice (remaining ranking : list str) : option str :=
  find (fun choice => mem choice remaining) ranking.

Definition count_ballot (remaining : list str) (tally : counter) (b : ballot)
  : counter :=
  let '(count, ranking) := b in
  match first_choice remaining ranking with
  | Some choice => counter_add choice count tally
  | None => tally
  end.

Definition irv_tally (remaining : list str) (ballots : list ballot)
  : counter :=
  fold_left (count_ballot remaining) ballots [].

(** ** [votes > total / 2]

    [total / 2] is the true division of two [int]s: the double nearest to
    the exact quotient (ties to even), [OverflowError] when that is not
    finite.  [round53 t] is [t] rounded to 53 significant bits, so the
    quotient is [round53 total / 2] exactly.  An [int] and a [float] are
    compared by their exact values. *)

Definition bit_length (t : Z) : Z :=
  if t =? 0 then 0 else Z.log2 (Z.abs t) + 1.

Definition round53_nonneg (t : Z) : Z :=
  let len := bit_length t in
  if len <=? 53 then t
  else
    let s := len - 53 in
    let q := Z.shiftr t s in
    let r := Z.land t (Z.ones s) in
    let half := Z.shiftl 1 (s - 1) in
    let q' := if (half <? r) || ((r =? half) && Z.odd q) then q + 1 else q in
    Z.shiftl q' s.

Definition round53 (t : Z) : Z := Z.sgn t * round53_nonneg (Z.abs t).

(** [total / 2], as twice its value (an integer). *)
Definition twice_half (total : Z) : result Z :=
  let r := round53 total in
  if 2 ^ 1025 <=? Z.abs r then Raise OverflowError else Ok r.

Definition exceeds_half (votes total : Z) : result bool :=
  match twice_half total with
  | Raise e => Raise e
  | Ok r => Ok (r <? 2 * votes)
  end.

(** [for candidate, votes in tally.items(): if votes > total / 2: return] *)
Fixpoint majority (total : Z) (items : counter) : result (option str) :=
  match items with
  | [] => Ok None
  | (candidate, votes) :: rest =>
      match exceeds_half votes total with
      | Raise e => Raise e
      | Ok true => Ok (Some candidate)
      | Ok false => majority total rest
      end
  end.

(** [min(tally.values()) if tally else 0] *)
Definition lowest_votes (tally : counter) : Z :=
  match values tally with
  | [] => 0
  | v :: vs => fold_left Z.min vs v
  end.

Definition eliminated (tally : counter) (remaining : list str) : list str :=
  filter (fun c => counter_get c tally =? lowest_votes tally) remaining.

(** [l.remove(x)]: the first occurrence; [None] stands for [ValueError]. *)
Fixpoint list_remove (x : str) (l : list str) : option (list str) :=
  match l with
  | [] => None
  | y :: l' =>
      if str_eqb y x then Some l'
      else match list_remove x l' with
           | Some r => Some (y :: r)
           | None => None
           end
  end.

(** [for candidate in xs: remaining.remove(candidate)] *)
Fixpoint remove_each (xs remaining : list str) : result (list str) :=
  match xs with
  | [] => Ok remaining
  | x :: xs' =>
      match list_remove x remaining with
      | None => Raise (ValueError RemoveNotInList)
      | Some remaining' => remove_each xs' remaining'
      end
  end.

Definition no_winner : str := py "No winner".

(** [remaining[0] if remaining else "No winner"] *)
Definition final_winner (remaining : list str) : str :=
  match remaining with
  | c :: _ => c
  | [] => no_winner
  end.

(** What one pass through the body of the [while] loop does: leave the
    function ([Return]: either the [return] of the majority check, or the
    [break] followed by the final [return]), or go on with a smaller
    [remaining]. *)
Inductive progress :=
| Return (winner : str) (rounds : list irv_round)
| Continue (remaining : list str) (rounds : list irv_round).

Definition irv_iteration (ballots : list ballot) (remaining : list str)
    (rounds : list irv_round) : result progress :=
  let tally := irv_tally remaining ballots in
  let total := sum (values tally) in
  let rounds := rounds ++ [mk_round tally total remaining] in
  if total =? 0 then Ok (Return (final_winner remaining) rounds)
  else
    match majority total tally with
    | Raise e => Raise e
    | Ok (Some candidate) => Ok (Return candidate rounds)
    | Ok None =>
        match remove_each (eliminated tally remaining) remaining with
        | Raise e => Raise e
        | Ok remaining' => Ok (Continue remaining' rounds)
        end
    end.

(** The [while len(remaining) > 1] loop; [None] when the fuel runs out. *)
Fixpoint irv_loop (fuel : nat) (ballots : list ballot) (remaining : list str)
    (rounds : list irv_round) : option (result (str * list irv_round)) :=
  if (length remaining <=? 1)%nat
  then Some (Ok (final_winner remaining, rounds))
  else
    match fuel with
    | O => None
    | S fuel' =>
        match irv_iteration ballots remaining rounds with
        | Raise e => Some (Raise e)
        | Ok (Return winner rounds') => Some (Ok (winner, rounds'))
        | Ok (Continue remaining' rounds') =>
            irv_loop fuel' ballots remaining' rounds'
        end
    end.

Definition irv_winner (candidates : list str) (ballots : list ballot)
  : option (result (str * list irv_round)) :=
  irv_loop (length candidates) ballots candidates [].

(* ================================================================== *)
(** * Borda                                                            *)
(* ================================================================== *)

(** [Counter({c: 0 for c in candidates})] *)
Definition zero_scores (candidates : list str) : counter :=
  fold_left (fun d c => counter_set c 0 d) candidates [].

(** [for idx, candidate in enumerate(ranking)], from index [idx] on. *)
Fixpoint borda_ballot (max_points count idx : Z) (ranking : list str)
    (scores : counter) : counter :=
  match ranking with
  | [] => scores
  | candidate :: rest =>
      borda_ballot max_points count (idx + 1) rest
        (counter_add candidate (count * (max_points - idx)) scores)
  end.

Definition borda_winner (candidates : list str) (ballots : list ballot)
  : counter :=
  let max_points := Z.of_nat (length candidates) - 1 in
  fold_left
    (fun scores (b : ballot) =>
       let '(count, ranking) := b in
       borda_ballot max_points count 0 ranking scores)
    ballots (zero_scores candidates).

(* ================================================================== *)
(** * Condorcet                                                        *)
(* ================================================================== *)

(** [defaultdict(lambda: defaultdict(int))]: rows in insertion order. *)
Definition matrix := list (str * counter).

(** The row of [a], empty when there is none (nothing is stored). *)
Fixpoint matrix_row (a : str) (m : matrix) : counter :=
  match m with
  | [] => []
  | (a', row) :: m' => if str_eqb a a' then row else matrix_row a m'
  end.

Definition pairwise_get (a b : str) (m : matrix) : Z :=
  counter_get b (matrix_row a m).

(** Apply [f] to the row [m[a]], which a [defaultdict] creates empty when
    it is missing. *)
Fixpoint matrix_update (a : str) (f : counter -> counter) (m : matrix)
  : matrix :=
  match m with
  | [] => [(a, f [])]
  | (a', row) :: m' =>
      if str_eqb a a' then (a', f row) :: m'
      else (a', row) :: matrix_update a f m'
  end.

(** [pairwise[winner][loser] += count] *)
Definition pairwise_add (winner loser : str) (count : Z) (m : matrix)
  : matrix :=
  matrix_update winner (counter_add loser count) m.

(** Reading [row[k]] on a [defaultdict(int)] stores 0 for a missing key. *)
Fixpoint counter_touch (k : str) (d : counter) : counter :=
  match d with
  | [] => [(k, 0)]
  | (k', v) :: d' =>
      if str_eqb k k' then d else (k', v) :: counter_touch k d'
  end.

(** Reading [pairwise[a][b]]: the value, and the matrix with the defaults
    the read has stored. *)
Definition pairwise_read (a b : str) (m : matrix) : Z * matrix :=
  (pairwise_get a b m, matrix_update a (counter_touch b) m).

(** [for i, winner in enumerate(ranking): for loser in ranking[i + 1:]] *)
Fixpoint pairwise_ballot (count : Z) (ranking : list str) (m : matrix)
  : matrix :=
  match ranking with
  | [] => m
  | winner :: later =>
      pairwise_ballot count later
        (fold_left (fun m loser => pairwise_add winner loser count m) later m)
  end.

Definition pairwise_matrix (ballots : list ballot) : matrix :=
  fold_left
    (fun m (b : ballot) => let '(count, ranking) := b in
                           pairwise_ballot count ranking m)
    ballots [].

(** The body of [for b in candidates] for a fixed [a]. *)
Definition compare_pair (a : str) (st : matrix * counter) (b : str)
  : matrix * counter :=
  let '(m, victories) := st in
  if str_eqb a b then st
  else
    let '(x, m1) := pairwise_read a b m in
    let '(y, m2) := pairwise_read b a m1 in
    if y <? x then (m2, counter_add a 1 victories) else (m2, victories).

Definition count_victories (candidates : list str) (m : matrix)
  : matrix * counter :=
  fold_left (fun st a => fold_left (compare_pair a) candidates st)
    candidates (m, []).

Definition condorcet_winner (candidates : list str) (ballots : list ballot)
  : option str * matrix * counter :=
  let '(pairwise, victories) :=
    count_victories candidates (pairwise_matrix ballots) in
  let winner :=
    find (fun candidate =>
            counter_get candidate victories
            =? Z.of_nat (length candidates) - 1)
      candidates in
  (winner, pairwise, victories).

(** * Valid input

    What [parse_candidates] and [parse_ballots] guarantee of the values
    they return. *)

Definition valid_candidates (candidates : list str) : Prop :=
  NoDup candidates /\ candidates <> [].

Definition valid_ballot (candidates : list str) (b : ballot) : Prop :=
  0 < fst b /\ NoDup (snd b) /\ incl (snd b) candidates.

Definition valid_ballots (candidates : list str) (ballots : list ballot)
  : Prop :=
  ballots <> [] /\ Forall (valid_ballot candidates) ballots.

(** The election of the default form contents. *)
Definition Alice := py "Alice".
Definition Bob := py "Bob".
Definition Chen := py "Chen".
Definition Diego := py "Diego".

Definition demo_candidates : list str := [Alice; Bob; Chen; Diego].

Definition demo_ballots : list ballot :=
  [ (10, [Alice; Bob; Chen; Diego]);
    (8, [Bob; Diego; Chen; Alice]);
    (6, [Chen; Alice; Bob; Diego]);
    (4, [Diego; Chen; Alice; Bob]) ].

(** The minimum the elimination step would use if it ranged over every
    remaining candidate, a candidate without a recorded tally counting as
    0.  This follows the wording of the specification, not the code, and is
    only compared with [lowest_votes]. *)
Definition lowest_over_remaining (tally : counter) (remaining : list str)
  : Z :=
  match map (fun c => counter_get c tally) remaining with
  | [] => 0
  | v :: vs => fold_left Z.min vs v
  end.

Definition keys (d : counter) : list str := map fst d.

Definition weights (ballots : list ballot) : list Z := map fst ballots.

(** Order-preserving sub-sequence. *)
Inductive subseq {A} : list A -> list A -> Prop :=
| subseq_nil : subseq [] []
| subseq_skip x l1 l2 : subseq l1 l2 -> subseq l1 (x :: l2)
| subseq_keep x l1 l2 : subseq l1 l2 -> subseq (x :: l1) (x :: l2).

(** What every tally built by [count_ballot] satisfies. *)
Definition tally_ok (remaining : list str) (t : counter) : Prop :=
  NoDup (keys t) /\ forall k, In k (keys t) -> In k remaining.

(** The weight a ballot brings to a round. *)
Definition counted (remaining : list str) (b : ballot) : Z :=
  match first_choice remaining (snd b) with
  | Some _ => fst b
  | None => 0
  end.

(** The entry a round appends to the trail. *)
Definition round_of (ballots : list ballot) (remaining : list str)
  : irv_round :=
  let tally := irv_tally remaining ballots in
  mk_round tally (sum (values tally)) remaining.

(** [valid_ballots], as a test. *)
Definition valid_ballotsb (candidates : list str) (ballots : list ballot)
  : bool :=
  truthy ballots
  && forallb (fun b : ballot =>
                (0 <? fst b) && negb (has_duplicates (snd b))
                && forallb (fun c => mem c candidates) (snd b))
       ballots.

(** Small elections used as examples. *)
Definition cA := py "A".
Definition cB := py "B".
Definition cC := py "C".
Definition cD := py "D".

(** Two voters with one choice each, four candidates. *)
Definition orphan_candidates : list str := [cA; cB; cC; cD].
Definition orphan_ballots : list ballot := [(1, [cA]); (1, [cB])].

(** Two tied front-runners and a candidate nobody ranks. *)
Definition unranked_candidates : list str := [cA; cB; cC].
Definition unranked_ballots : list ballot :=
  [(2, [cA; cB]); (2, [cB; cA])].

(** A perfect tie between two candidates. *)
Definition tie_candidates : list str := [cA; cB].
Definition tie_ballots : list ballot := [(1, [cA; cB]); (1, [cB; cA])].

(** An election with more than [2 ^ 54] votes. *)
Definition huge_candidates : list str := [cA; cB; cC].
Definition huge_ballots : list ballot :=
  [(2 ^ 53 + 4, [cA]); (2 ^ 53 + 2, [cB]); (1, [cC])].

(** [pairwise[a][b] > pairwise[b][a]] for two different candidates. *)
Definition beats (m : matrix) (a b : str) : bool :=
  negb (str_eqb a b) && (pairwise_get b a m <? pairwise_get a b m).

(** The number of other candidates that [a] beats head to head. *)
Definition wins (m : matrix) (candidates : list str) (a : str) : Z :=
  Z.of_nat (length (filter (beats m a) candidates)).

(** Two matrices with the same entries (the stored keys may differ). *)
Definition same_entries (m m' : matrix) : Prop :=
  forall x y, pairwise_get x y m' = pairwise_get x y m.

(* ------------------------------------------------------------------ *)
(** ** Further notions used to state properties                        *)
(* ------------------------------------------------------------------ *)

(** The line number that the message of a per-line error carries. *)
Definition error_line (e : exn) : option nat :=
  match e with
  | ValueError (BadFormat i) => Some i
  | ValueError (InvalidCount i) => Some i
  | ValueError (NonPositiveCount i) => Some i
  | ValueError (DuplicateRanking i) => Some i
  | ValueError (UnknownCandidates i _) => Some i
  | _ => None
  end.

(** [line.strip()] is not empty: the line is not skipped. *)
Definition nonblank (line : str) : bool := truthy (strip line).

(** What ballot [b] adds to the tally of [c] in a round. *)
Definition vote_for (remaining : list str) (c : str) (b : ballot) : Z :=
  match first_choice remaining (snd b) with
  | Some c' => if str_eqb c' c then fst b else 0
  | None => 0
  end.

(** The candidates that an elimination leaves. *)
Definition survivors (tally : counter) (remaining : list str) : list str :=
  filter (fun c => negb (counter_get c tally =? lowest_votes tally))
    remaining.

(** A run of the loop from [remaining] that appends the rounds [added] and
    returns [winner]. *)
Fixpoint run_from (ballots : list ballot) (remaining : list str)
    (added : list irv_round) (winner : str) : Prop :=
  match added with
  | [] => (length remaining <= 1)%nat /\ winner = final_winner remaining
  | r :: rest =>
      (2 <= length remaining)%nat
      /\ r = round_of ballots remaining
      /\ let tally := irv_tally remaining ballots in
         let total := sum (values tally) in
         (total = 0 /\ rest = [] /\ winner = final_winner remaining)
         \/ (total <> 0 /\ majority total tally = Ok (Some winner)
             /\ rest = [])
         \/ (total <> 0 /\ majority total tally = Ok None
             /\ run_from ballots (survivors tally remaining) rest winner)
  end.

(** [ranking.index(c)]: where [c] first occurs in a ranking. *)
Fixpoint position (c : str) (ranking : list str) : option nat :=
  match ranking with
  | [] => None
  | x :: rest =>
      if str_eqb x c then Some O
      else match position c rest with
           | Some i => Some (S i)
           | None => None
           end
  end.

(** The Borda points that ballot [b] gives to [c]. *)
Definition borda_points (max_points : Z) (c : str) (b : ballot) : Z :=
  match position c (snd b) with
  | Some i => fst b * (max_points - Z.of_nat i)
  | None => 0
  end.

(** [max(items, key=itemgetter(1))] on the items after [best]: the first
    item with the largest count. *)
Fixpoint max_item (best : str * Z) (items : counter) : str * Z :=
  match items with
  | [] => best
  | kv :: rest => max_item (if snd best <? snd kv then kv else best) rest
  end.

(** [scores.most_common(1)], that is [heapq.nlargest(1, scores.items(),
    key=itemgetter(1))]: the item [max] finds, none for an empty counter. *)
Definition most_common_1 (scores : counter) : list (str * Z) :=
  match scores with
  | [] => []
  | kv :: rest => [max_item kv rest]
  end.

(** The Borda winner that [run_simulation] reports:
    [scores.most_common(1)[0][0] if scores else "No winner"]; [None]
    stands for the [IndexError] of [[0]] on an empty list. *)
Definition borda_top (scores : counter) : option str :=
  if truthy scores then
    match most_common_1 scores with
    | kv :: _ => Some (fst kv)
    | [] => None
    end
  else Some no_winner.

(** [a] comes before [b] in a ranking: [b] is in the part after the first
    [a]. *)
Fixpoint ranks_before (a b : str) (ranking : list str) : bool :=
  match ranking with
  | [] => false
  | x :: rest => if str_eqb x a then mem b rest else ranks_before a b rest
  end.

(** The weight that ballot [bl] gives to [a] against [b]. *)
Definition head_to_head (a b : str) (bl : ballot) : Z :=
  if ranks_before a b (snd bl) then fst bl else 0.

(** Two trails that agree on everything but the order in which the
    tallies list their entries. *)
Definition same_rounds (rs rs' : list irv_round) : Prop :=
  Forall2
    (fun r r' =>
       round_remaining r = round_remaining r'
       /\ round_total r = round_total r'
       /\ forall c, counter_get c (round_tally r)
                    = counter_get c (round_tally r'))
    rs rs'.

(* ================================================================== *)
(** * Basic facts                                                      *)
(* ================================================================== *)

Lemma str_eqb_eq (a b : str) : str_eqb a b = true <-> a = b.
Proof.
  unfold str_eqb. destruct (str_eq_dec a b); split; congruence.
Qed.

Lemma str_eqb_refl (a : str) : str_eqb a a = true.
Proof. now apply str_eqb_eq. Qed.

Lemma str_eqb_neq (a b : str) : str_eqb a b = false <-> a <> b.
Proof.
  unfold str_eqb. destruct (str_eq_dec a b); split; congruence.
Qed.

Lemma mem_In (x : str) (l : list str) : mem x l = true <-> In x l.
Proof.
  unfold mem. rewrite existsb_exists. split.
  - intros [y [Hy Heq]]. apply str_eqb_eq in Heq. now subst.
  - intros H. exists x. split; [assumption | apply str_eqb_refl].
Qed.

Lemma mem_false (x : str) (l : list str) : mem x l = false <-> ~ In x l.
Proof.
  rewrite <- mem_In. destruct (mem x l); split; congruence.
Qed.

Lemma nodup_length_le (l : list str) :
  (length (nodup str_eq_dec l) <= length l)%nat.
Proof.
  induction l as [|x l IH]; simpl; [lia|].
  destruct (in_dec str_eq_dec x l); simpl; lia.
Qed.

(** [len(set(l)) == len(l)] exactly when [l] has no repetition. *)
Lemma has_duplicates_false (l : list str) :
  has_duplicates l = false <-> NoDup l.
Proof.
  unfold has_duplicates. rewrite negb_false_iff, Nat.eqb_eq. split.
  - induction l as [|x l IH]; simpl; intros H; [constructor|].
    pose proof (nodup_length_le l).
    destruct (in_dec str_eq_dec x l) as [Hin | Hnin]; simpl in H; [lia|].
    constructor; [assumption | apply IH; lia].
  - intros H. now rewrite nodup_fixed_point.
Qed.

Lemma valid_ballotsb_sound (candidates : list str) (ballots : list ballot) :
  valid_ballotsb candidates ballots = true ->
  valid_ballots candidates ballots.
Proof.
  unfold valid_ballotsb. rewrite andb_true_iff, forallb_forall.
  intros [Hne Hall]. split.
  - destruct ballots; [discriminate | congruence].
  - apply Forall_forall. intros b Hb. specialize (Hall b Hb).
    rewrite !andb_true_iff, negb_true_iff, forallb_forall in Hall.
    destruct Hall as [[Hpos Hnd] Hin]. repeat split.
    + lia.
    + now apply has_duplicates_false.
    + intros c Hc. apply mem_In. now apply Hin.
Qed.

Lemma fold_add_shift (l : list Z) (a : Z) :
  fold_left Z.add l a = a + fold_left Z.add l 0.
Proof.
  revert a. induction l as [|x l IH]; intros a; simpl.
  - lia.
  - rewrite IH. rewrite (IH x). lia.
Qed.

Lemma sum_nil : sum [] = 0.
Proof. reflexivity. Qed.

Lemma sum_cons (x : Z) (l : list Z) : sum (x :: l) = x + sum l.
Proof. unfold sum. simpl. now rewrite fold_add_shift. Qed.

Lemma sum_app (l1 l2 : list Z) : sum (l1 ++ l2) = sum l1 + sum l2.
Proof.
  induction l1 as [|x l1 IH]; cbn [app].
  - rewrite sum_nil. lia.
  - rewrite !sum_cons, IH. lia.
Qed.

Lemma sum_nonneg (l : list Z) : Forall (fun v => 0 <= v) l -> 0 <= sum l.
Proof.
  induction 1 as [|x l Hx _ IH].
  - rewrite sum_nil. lia.
  - rewrite sum_cons. lia.
Qed.

Lemma sum_ge_member (l : list Z) (v : Z) :
  Forall (fun v => 0 <= v) l -> In v l -> v <= sum l.
Proof.
  induction 1 as [|x l Hx Hl IH]; simpl; [tauto|].
  rewrite sum_cons. intros [-> | Hin].
  - pose proof (sum_nonneg l Hl). lia.
  - specialize (IH Hin). lia.
Qed.

(** ** Counter *)

Lemma counter_sum_add (k : str) (n : Z) (d : counter) :
  sum (values (counter_add k n d)) = sum (values d) + n.
Proof.
  induction d as [|[k' v] d IH]; simpl.
  - unfold values; simpl. rewrite sum_cons, sum_nil. lia.
  - destruct (str_eqb k k'); unfold values in *; simpl;
      rewrite !sum_cons; [lia | rewrite IH; lia].
Qed.

Lemma counter_add_keys (k : str) (n : Z) (d : counter) (x : str) :
  In x (keys (counter_add k n d)) <-> x = k \/ In x (keys d).
Proof.
  induction d as [|[k' v] d IH]; simpl.
  - intuition.
  - destruct (str_eqb k k') eqn:E; simpl.
    + apply str_eqb_eq in E. subst. intuition.
    + rewrite IH. intuition.
Qed.

Lemma counter_add_NoDup (k : str) (n : Z) (d : counter) :
  NoDup (keys d) -> NoDup (keys (counter_add k n d)).
Proof.
  induction d as [|[k' v] d IH]; simpl; intros H.
  - constructor; [intros [] | constructor].
  - inversion H as [|? ? Hnotin Hnd]; subst.
    destruct (str_eqb k k') eqn:E; simpl.
    + constructor; assumption.
    + constructor; [|now apply IH].
      intros Hin. apply counter_add_keys in Hin as [-> | Hin].
      * now rewrite str_eqb_refl in E.
      * contradiction.
Qed.

Lemma counter_get_add (k k' : str) (n : Z) (d : counter) :
  counter_get k' (counter_add k n d)
  = if str_eqb k' k then counter_get k d + n else counter_get k' d.
Proof.
  induction d as [|[k0 v] d IH]; simpl.
  - destruct (str_eqb k' k); reflexivity.
  - destruct (str_eqb k k0) eqn:E0; simpl.
    + apply str_eqb_eq in E0. subst k0.
      destruct (str_eqb k' k); reflexivity.
    + destruct (str_eqb k' k0) eqn:E1.
      * apply str_eqb_eq in E1. subst k0.
        destruct (str_eqb k' k) eqn:E2; [|reflexivity].
        apply str_eqb_eq in E2. subst. now rewrite str_eqb_refl in E0.
      * exact IH.
Qed.

Lemma counter_get_In (k : str) (v : Z) (d : counter) :
  NoDup (keys d) -> In (k, v) d -> counter_get k d = v.
Proof.
  induction d as [|[k0 v0] d IH]; simpl; [tauto|].
  intros Hnd [Heq | Hin].
  - inversion Heq; subst. now rewrite str_eqb_refl.
  - inversion Hnd as [|? ? Hnotin Hnd']; subst.
    destruct (str_eqb k k0) eqn:E.
    + apply str_eqb_eq in E. subst. exfalso. apply Hnotin.
      change k0 with (fst (k0, v)). now apply in_map.
    + now apply IH.
Qed.

Lemma counter_add_values_pos (k : str) (n : Z) (d : counter) :
  0 < n -> Forall (fun v => 0 < v) (values d) ->
  Forall (fun v => 0 < v) (values (counter_add k n d)).
Proof.
  intros Hn. induction d as [|[k' v] d IH]; simpl; intros H.
  - repeat constructor. lia.
  - inversion H; subst. destruct (str_eqb k k'); simpl; constructor;
      try assumption; try lia. now apply IH.
Qed.

(* ================================================================== *)
(** * Instant runoff: the tally of a round                             *)
(* ================================================================== *)

Lemma first_choice_Some (remaining ranking : list str) (c : str) :
  first_choice remaining ranking = Some c ->
  In c ranking /\ In c remaining.
Proof.
  unfold first_choice. intros H. apply find_some in H as [H1 H2].
  split; [assumption | now apply mem_In].
Qed.

Lemma first_choice_None (remaining ranking : list str) :
  first_choice remaining ranking = None ->
  forall c, In c ranking -> ~ In c remaining.
Proof.
  unfold first_choice. intros H c Hc.
  apply mem_false. exact (find_none _ _ H c Hc).
Qed.

Section Tally.
Variable remaining : list str.

Lemma count_ballot_ok (t : counter) (b : ballot) :
  tally_ok remaining t -> tally_ok remaining (count_ballot remaining t b).
Proof.
  intros [Hnd Hin]. destruct b as [count ranking]. unfold count_ballot.
  destruct (first_choice remaining ranking) as [c|] eqn:E.
  - split.
    + now apply counter_add_NoDup.
    + intros k Hk. apply counter_add_keys in Hk as [-> | Hk].
      * now apply first_choice_Some in E.
      * now apply Hin.
  - now split.
Qed.

Lemma fold_count_ok (ballots : list ballot) (t : counter) :
  tally_ok remaining t ->
  tally_ok remaining (fold_left (count_ballot remaining) ballots t).
Proof.
  revert t. induction ballots as [|b bs IH]; intros t Ht; simpl.
  - assumption.
  - apply IH. now apply count_ballot_ok.
Qed.

Lemma irv_tally_ok (ballots : list ballot) :
  tally_ok remaining (irv_tally remaining ballots).
Proof.
  apply fold_count_ok. split; [constructor | intros k []].
Qed.

Lemma fold_count_sum (ballots : list ballot) (t : counter) :
  sum (values (fold_left (count_ballot remaining) ballots t))
  = sum (values t) + sum (map (counted remaining) ballots).
Proof.
  revert t. induction ballots as [|[count ranking] bs IH]; intros t.
  - simpl. rewrite sum_nil. lia.
  - cbn [fold_left map]. rewrite IH, sum_cons.
    unfold count_ballot, counted. cbn [fst snd].
    destruct (first_choice remaining ranking).
    + rewrite counter_sum_add. lia.
    + lia.
Qed.

Lemma irv_tally_sum (ballots : list ballot) :
  sum (values (irv_tally remaining ballots)) = sum (map (counted remaining) ballots).
Proof.
  unfold irv_tally. rewrite fold_count_sum. reflexivity.
Qed.

Lemma fold_count_pos (ballots : list ballot) (t : counter) :
  Forall (fun b => 0 < fst b) ballots ->
  Forall (fun v => 0 < v) (values t) ->
  Forall (fun v => 0 < v)
    (values (fold_left (count_ballot remaining) ballots t)).
Proof.
  intros Hb. revert t.
  induction Hb as [|[count ranking] bs Hc _ IH]; intros t Ht; simpl.
  - assumption.
  - apply IH. destruct (first_choice remaining ranking); [|assumption].
    now apply counter_add_values_pos.
Qed.

Lemma irv_tally_pos (ballots : list ballot) :
  Forall (fun b => 0 < fst b) ballots ->
  Forall (fun v => 0 < v) (values (irv_tally remaining ballots)).
Proof.
  intros H. apply fold_count_pos; [assumption | constructor].
Qed.
End Tally.

(** ** The minimum and the elimination *)

Lemma fold_min_In (vs : list Z) (v : Z) : In (fold_left Z.min vs v) (v :: vs).
Proof.
  revert v. induction vs as [|x vs IH]; intros v; simpl.
  - now left.
  - destruct (IH (Z.min v x)) as [H | H].
    + rewrite <- H. destruct (Z.min_spec v x) as [[_ E] | [_ E]];
        rewrite E; auto.
    + right. now right.
Qed.

Lemma fold_min_le_init (vs : list Z) (v : Z) : fold_left Z.min vs v <= v.
Proof.
  revert v. induction vs as [|y vs IH]; intros v; simpl.
  - lia.
  - specialize (IH (Z.min v y)). lia.
Qed.

Lemma fold_min_le (vs : list Z) (v x : Z) :
  In x (v :: vs) -> fold_left Z.min vs v <= x.
Proof.
  revert v. induction vs as [|y vs IH]; intros v.
  - intros [-> | []]. simpl. lia.
  - intros [-> | [-> | Hin]].
    + apply fold_min_le_init.
    + simpl. pose proof (fold_min_le_init vs (Z.min v x)). lia.
    + simpl. apply IH. now right.
Qed.

Lemma lowest_votes_attained (tally : counter) :
  tally <> [] -> exists k, In (k, lowest_votes tally) tally.
Proof.
  destruct tally as [|[k v] t]; [congruence|]. intros _.
  unfold lowest_votes. cbn [values map snd].
  pose proof (fold_min_In (map snd t) v) as H.
  change (v :: map snd t) with (map snd ((k, v) :: t)) in H.
  apply in_map_iff in H as [[k' v'] [Heq Hin]]. simpl in Heq.
  exists k'. now rewrite <- Heq.
Qed.

Lemma lowest_votes_le (tally : counter) (k : str) (v : Z) :
  In (k, v) tally -> lowest_votes tally <= v.
Proof.
  intros Hin. destruct tally as [|[k0 v0] t]; [destruct Hin|].
  unfold lowest_votes. cbn [values map snd]. apply fold_min_le.
  change (v0 :: map snd t) with (map snd ((k0, v0) :: t)).
  change v with (snd (k, v)). now apply in_map.
Qed.

Lemma list_remove_skip (x : str) (pre post : list str) :
  ~ In x pre -> list_remove x (pre ++ x :: post) = Some (pre ++ post).
Proof.
  induction pre as [|y pre IH]; simpl; intros H.
  - now rewrite str_eqb_refl.
  - destruct (str_eqb y x) eqn:E.
    + apply str_eqb_eq in E. subst. exfalso. apply H. now left.
    + rewrite IH; [reflexivity | intuition].
Qed.

(** Removing, one by one, the elements of [l] that satisfy [p] never
    fails and leaves the others, in order. *)
Lemma remove_each_filter_gen (p : str -> bool) (l pre : list str) :
  (forall x, In x pre -> p x = false) ->
  remove_each (filter p l) (pre ++ l) = Ok (pre ++ filter (fun x => negb (p x)) l).
Proof.
  revert pre. induction l as [|y l IH]; intros pre Hpre; simpl.
  - reflexivity.
  - destruct (p y) eqn:E; simpl.
    + rewrite list_remove_skip.
      * now apply IH.
      * intros Hin. apply Hpre in Hin. congruence.
    + change (pre ++ y :: l) with (pre ++ [y] ++ l).
      change (pre ++ y :: filter (fun x => negb (p x)) l)
        with (pre ++ [y] ++ filter (fun x => negb (p x)) l).
      rewrite !app_assoc. apply IH.
      intros x Hx. apply in_app_or in Hx as [Hx | [-> | []]]; auto.
Qed.

Lemma remove_each_filter (p : str -> bool) (l : list str) :
  remove_each (filter p l) l = Ok (filter (fun x => negb (p x)) l).
Proof. apply (remove_each_filter_gen p l []). intros x []. Qed.

Lemma filter_negb_shorter (p : str -> bool) (l : list str) (x : str) :
  In x l -> p x = true ->
  (length (filter (fun x => negb (p x)) l) < length l)%nat.
Proof.
  induction l as [|y l IH]; simpl; [tauto|].
  intros [-> | Hin] Hp.
  - rewrite Hp. simpl.
    pose proof (filter_length_le (fun x => negb (p x)) l). lia.
  - specialize (IH Hin Hp). destruct (negb (p y)); simpl; lia.
Qed.

Lemma eliminated_shrinks (remaining : list str) (ballots : list ballot) :
  irv_tally remaining ballots <> [] ->
  exists remaining',
    remove_each (eliminated (irv_tally remaining ballots) remaining) remaining
    = Ok remaining'
    /\ (length remaining' < length remaining)%nat.
Proof.
  intros Hne. unfold eliminated. rewrite remove_each_filter.
  eexists. split; [reflexivity|].
  destruct (lowest_votes_attained _ Hne) as [k Hk].
  destruct (irv_tally_ok remaining ballots) as [Hnd Hsub].
  apply filter_negb_shorter with (x := k).
  - apply Hsub. change k with (fst (k, lowest_votes (irv_tally remaining ballots))).
    now apply in_map.
  - apply Z.eqb_eq. now apply counter_get_In.
Qed.

(* ================================================================== *)
(** * Instant runoff: the loop                                         *)
(* ================================================================== *)

Lemma irv_loop_eq (fuel : nat) (ballots : list ballot)
    (remaining : list str) (rounds : list irv_round) :
  irv_loop fuel ballots remaining rounds =
  if (length remaining <=? 1)%nat
  then Some (Ok (final_winner remaining, rounds))
  else
    match fuel with
    | O => None
    | S fuel' =>
        match irv_iteration ballots remaining rounds with
        | Raise e => Some (Raise e)
        | Ok (Return winner rounds') => Some (Ok (winner, rounds'))
        | Ok (Continue remaining' rounds') =>
            irv_loop fuel' ballots remaining' rounds'
        end
    end.
Proof. destruct fuel; reflexivity. Qed.

Lemma majority_raises (total : Z) (items : counter) (e : exn) :
  majority total items = Raise e -> e = OverflowError.
Proof.
  induction items as [|[c v] items IH]; simpl; [discriminate|].
  unfold exceeds_half, twice_half.
  destruct (2 ^ 1025 <=? Z.abs (round53 total)).
  - congruence.
  - destruct (round53 total <? 2 * v); [discriminate | exact IH].
Qed.

(** One pass through the loop body: it appends exactly one round, and it
    either leaves the function or goes on with fewer candidates; the only
    exception it can raise is the overflow of [total / 2]. *)
Lemma irv_iteration_spec (ballots : list ballot) (remaining : list str)
    (rounds : list irv_round) :
  match irv_iteration ballots remaining rounds with
  | Ok (Return _ rounds') => rounds' = rounds ++ [round_of ballots remaining]
  | Ok (Continue remaining' rounds') =>
      rounds' = rounds ++ [round_of ballots remaining]
      /\ (length remaining' < length remaining)%nat
  | Raise e => e = OverflowError
  end.
Proof.
  unfold irv_iteration, round_of.
  destruct (sum (values (irv_tally remaining ballots)) =? 0) eqn:E0;
    [reflexivity|].
  destruct (majority _ (irv_tally remaining ballots)) as [[c|]|e] eqn:Em.
  - reflexivity.
  - destruct (eliminated_shrinks remaining ballots) as [r' [Hr Hlt]].
    + intros Hnil. rewrite Hnil in E0. discriminate.
    + rewrite Hr. now split.
  - now apply majority_raises in Em.
Qed.

Lemma irv_loop_spec (ballots : list ballot) (fuel : nat) :
  forall (remaining : list str) (rounds : list irv_round),
    (length remaining <= S fuel)%nat ->
    exists outcome,
      irv_loop fuel ballots remaining rounds = Some outcome
      /\ match outcome with
         | Ok (_, trail) =>
             exists added, trail = rounds ++ added
                           /\ (length added <= length remaining - 1)%nat
         | Raise e => e = OverflowError
         end.
Proof.
  induction fuel as [|fuel IH]; intros remaining rounds Hlen;
    rewrite irv_loop_eq;
    destruct (Nat.leb_spec (length remaining) 1) as [Hle | Hgt].
  - eexists. split; [reflexivity|]. exists []. rewrite app_nil_r. simpl.
    split; [reflexivity | lia].
  - lia.
  - eexists. split; [reflexivity|]. exists []. rewrite app_nil_r. simpl.
    split; [reflexivity | lia].
  - pose proof (irv_iteration_spec ballots remaining rounds) as Hit.
    destruct (irv_iteration ballots remaining rounds) as [[w rs | r' rs] | e].
    + eexists. split; [reflexivity|]. exists [round_of ballots remaining].
      split; [assumption | simpl; lia].
    + destruct Hit as [-> Hlt].
      destruct (IH r' (rounds ++ [round_of ballots remaining]))
        as [out [Hout Hspec]]; [lia|].
      exists out. split; [assumption|].
      destruct out as [[w trail] | e]; [|assumption].
      destruct Hspec as [added [-> Hadd]].
      exists (round_of ballots remaining :: added).
      rewrite <- app_assoc. split; [reflexivity | simpl; lia].
    + eexists. split; [reflexivity | assumption].
Qed.

(** More fuel than needed changes nothing. *)
Lemma irv_loop_fuel (ballots : list ballot) (f1 : nat) :
  forall (f2 : nat) (remaining : list str) (rounds : list irv_round),
    (length remaining <= S f1)%nat -> (length remaining <= S f2)%nat ->
    irv_loop f1 ballots remaining rounds
    = irv_loop f2 ballots remaining rounds.
Proof.
  induction f1 as [|f1 IH]; intros f2 remaining rounds H1 H2;
    rewrite (irv_loop_eq f2); rewrite irv_loop_eq;
    destruct (Nat.leb_spec (length remaining) 1) as [Hle | Hgt];
    try reflexivity; try lia.
  destruct f2 as [|f2]; [lia|].
  pose proof (irv_iteration_spec ballots remaining rounds) as Hit.
  destruct (irv_iteration ballots remaining rounds) as [[w rs | r' rs] | e];
    try reflexivity.
  destruct Hit as [_ Hlt]. apply IH; lia.
Qed.

(** C6.  For every input with at least one candidate the IRV engine
    terminates: a pass through the loop that does not leave the function
    strictly shrinks [remaining], so a fuel of [len(candidates)] (or any
    larger one) is never exhausted; the engine either returns or raises the
    overflow of [total / 2], and a trail it returns has at most
    [len(candidates) - 1] rounds. *)
Theorem irv_terminates (candidates : list str) (ballots : list ballot)
    (Hone : (1 <= length candidates)%nat) :
  (forall remaining rounds remaining' rounds',
      irv_iteration ballots remaining rounds
      = Ok (Continue remaining' rounds') ->
      (length remaining' < length remaining)%nat)
  /\ exists outcome,
      irv_winner candidates ballots = Some outcome
      /\ (forall fuel, (length candidates <= fuel)%nat ->
            irv_loop fuel ballots candidates [] = Some outcome)
      /\ match outcome with
         | Ok (_, trail) => (length trail + 1 <= length candidates)%nat
         | Raise e => e = OverflowError
         end.
Proof.
  split.
  - intros remaining rounds remaining' rounds' H.
    pose proof (irv_iteration_spec ballots remaining rounds) as Hit.
    rewrite H in Hit. tauto.
  - unfold irv_winner.
    destruct (irv_loop_spec ballots (length candidates) candidates [])
      as [out [Hout Hspec]]; [lia|].
    exists out. split; [assumption|]. split.
    + intros fuel Hfuel. rewrite <- Hout. apply irv_loop_fuel; lia.
    + destruct out as [[w trail] | e]; [|assumption].
      destruct Hspec as [added [-> Hadd]]. simpl. lia.
Qed.

Lemma irv_terminates_witness :
  (1 <= length demo_candidates)%nat
  /\ exists trail,
      irv_winner demo_candidates demo_ballots = Some (Ok (Chen, trail))
      /\ (length trail + 1 <= length demo_candidates)%nat.
Proof.
  split; [simpl; lia|].
  destruct (irv_terminates demo_candidates demo_ballots) as [_ [out [Hout [_ Hlen]]]];
    [simpl; lia|].
  destruct out as [[w trail] | e].
  - exists trail. split; [|exact Hlen].
    rewrite Hout. vm_compute in Hout.
    injection Hout as <- _. reflexivity.
  - vm_compute in Hout. discriminate.
Defined.

(** ** The first round *)

Lemma irv_first_round (candidates : list str) (ballots : list ballot)
    (winner : str) (trail : list irv_round) :
  (2 <= length candidates)%nat ->
  irv_winner candidates ballots = Some (Ok (winner, trail)) ->
  exists rest, trail = round_of ballots candidates :: rest.
Proof.
  intros Htwo. unfold irv_winner. rewrite irv_loop_eq.
  destruct (Nat.leb_spec (length candidates) 1) as [Hle | _]; [lia|].
  destruct (length candidates) as [|fuel] eqn:Elen; [lia|].
  pose proof (irv_iteration_spec ballots candidates []) as Hit.
  destruct (irv_iteration ballots candidates []) as [[w rs | r' rs] | e].
  - intros H. injection H as _ <-. exists []. exact Hit.
  - destruct Hit as [-> Hlt]. intros H.
    destruct (irv_loop_spec ballots fuel r' ([] ++ [round_of ballots candidates]))
      as [out [Hout Hspec]]; [lia|].
    rewrite H in Hout. injection Hout as <-.
    destruct Hspec as [added [-> _]]. now exists added.
  - discriminate.
Qed.

Lemma sum_map_le {A} (f g : A -> Z) (l : list A) :
  Forall (fun x => f x <= g x) l -> sum (map f l) <= sum (map g l).
Proof.
  induction 1 as [|x l Hx _ IH]; cbn [map].
  - lia.
  - rewrite !sum_cons. lia.
Qed.

Lemma sum_map_eq {A} (f g : A -> Z) (l : list A) :
  Forall (fun x => f x = g x) l -> sum (map f l) = sum (map g l).
Proof.
  induction 1 as [|x l Hx _ IH]; cbn [map].
  - reflexivity.
  - rewrite !sum_cons. lia.
Qed.

Lemma counted_le (remaining : list str) (b : ballot) :
  0 <= fst b -> counted remaining b <= fst b.
Proof.
  unfold counted. destruct (first_choice remaining (snd b)); lia.
Qed.

Lemma counted_full (remaining : list str) (b : ballot) :
  snd b <> [] -> incl (snd b) remaining -> counted remaining b = fst b.
Proof.
  unfold counted. intros Hne Hincl.
  destruct (first_choice remaining (snd b)) eqn:E; [reflexivity|].
  destruct (snd b) as [|c r]; [congruence|].
  exfalso. apply (first_choice_None _ _ E c); [now left|].
  apply Hincl. now left.
Qed.

(* ================================================================== *)
(** * Instant runoff: what the stop conditions return                  *)
(* ================================================================== *)

(** C1.  On [orphan_candidates], [orphan_ballots] (valid input) round 1
    eliminates A and B, round 2 counts nothing: its total is 0, the engine
    appends the round and stops, but what it returns is [remaining[0]], the
    candidate C, who has no vote, and not the "No winner" value.  The same
    happens in round 1 when the only ballot has an empty ranking. *)
Theorem irv_zero_total_returns_first_remaining :
  valid_candidates orphan_candidates
  /\ valid_ballots orphan_candidates orphan_ballots
  /\ irv_winner orphan_candidates orphan_ballots
     = Some (Ok (cC, [ mk_round [(cA, 1); (cB, 1)] 2 [cA; cB; cC; cD];
                       mk_round [] 0 [cC; cD] ]))
  /\ cC <> no_winner
  /\ parse_ballots (py "1:") [cA; cB] = Ok [(1, [])]
  /\ irv_winner [cA; cB] [(1, [])]
     = Some (Ok (cA, [mk_round [] 0 [cA; cB]]))
  /\ cA <> no_winner.
Proof.
  split; [|split; [|split; [|split; [|split; [|split]]]]].
  - split; [apply has_duplicates_false; reflexivity | discriminate].
  - apply valid_ballotsb_sound. reflexivity.
  - vm_compute. reflexivity.
  - discriminate.
  - reflexivity.
  - vm_compute. reflexivity.
  - discriminate.
Qed.

(** C2.  On [unranked_candidates], [unranked_ballots] (valid input) round 1
    has tally A: 2, B: 2, total 4 and no majority.  The minimum over the
    remaining candidates, C without a recorded tally counting as 0, is 0
    and C alone is at it; the code takes the minimum of the recorded
    tallies only, 2, removes A and B, keeps C and returns C. *)
Theorem irv_elimination_skips_unrecorded :
  let tally := irv_tally unranked_candidates unranked_ballots in
  valid_candidates unranked_candidates
  /\ valid_ballots unranked_candidates unranked_ballots
  /\ tally = [(cA, 2); (cB, 2)]
  /\ majority (sum (values tally)) tally = Ok None
  /\ lowest_over_remaining tally unranked_candidates = 0
  /\ filter (fun c => counter_get c tally
                      =? lowest_over_remaining tally unranked_candidates)
       unranked_candidates = [cC]
  /\ lowest_votes tally = 2
  /\ eliminated tally unranked_candidates = [cA; cB]
  /\ irv_winner unranked_candidates unranked_ballots
     = Some (Ok (cC, [mk_round tally 4 unranked_candidates])).
Proof.
  cbv zeta. split; [|split].
  - split; [apply has_duplicates_false; reflexivity | discriminate].
  - apply valid_ballotsb_sound. reflexivity.
  - repeat split; vm_compute; reflexivity.
Qed.

(** C10.  There is a valid input with two candidates and a positive
    counted total on which the single round eliminates every remaining
    candidate (they tie at the minimum) and the engine returns "No winner",
    which is no candidate. *)
Theorem irv_all_tied_no_winner :
  exists candidates ballots,
    valid_candidates candidates
    /\ valid_ballots candidates ballots
    /\ (2 <= length candidates)%nat
    /\ 0 < sum (values (irv_tally candidates ballots))
    /\ eliminated (irv_tally candidates ballots) candidates = candidates
    /\ irv_winner candidates ballots
       = Some (Ok (no_winner, [round_of ballots candidates]))
    /\ ~ In no_winner candidates.
Proof.
  exists tie_candidates, tie_ballots.
  split; [|split; [|split; [|split; [|split; [|split]]]]].
  - split; [apply has_duplicates_false; reflexivity | discriminate].
  - apply valid_ballotsb_sound. reflexivity.
  - simpl. lia.
  - reflexivity.
  - reflexivity.
  - vm_compute. reflexivity.
  - apply mem_false. reflexivity.
Qed.

(* ================================================================== *)
(** * Instant runoff: the majority check                               *)
(* ================================================================== *)

Lemma round53_exact (t : Z) : 0 <= t < 2 ^ 53 -> round53 t = t.
Proof.
  intros [H0 H53]. unfold round53.
  destruct (Z.eq_dec t 0) as [-> | Hne]; [reflexivity|].
  rewrite Z.sgn_pos, Z.abs_eq by lia. rewrite Z.mul_1_l.
  unfold round53_nonneg, bit_length.
  replace (t =? 0) with false by (symmetry; apply Z.eqb_neq; assumption).
  rewrite Z.abs_eq by lia.
  assert (Hlog : Z.log2 t < 53) by (apply Z.log2_lt_pow2; lia).
  replace (Z.log2 t + 1 <=? 53) with true
    by (symmetry; apply Z.leb_le; lia).
  reflexivity.
Qed.

(** Below [2 ^ 53] the quotient [total / 2] is exact, and the comparison
    is the comparison of reals. *)
Lemma exceeds_half_exact (votes total : Z) :
  0 <= total < 2 ^ 53 -> exceeds_half votes total = Ok (total <? 2 * votes).
Proof.
  intros H. unfold exceeds_half, twice_half. rewrite (round53_exact _ H).
  replace (2 ^ 1025 <=? Z.abs total) with false; [reflexivity|].
  symmetry. apply Z.leb_gt. rewrite Z.abs_eq by lia.
  apply Z.lt_le_trans with (2 ^ 53); [lia|].
  apply Z.pow_le_mono_r; lia.
Qed.

Lemma majority_exact (total : Z) (items : counter) :
  0 <= total < 2 ^ 53 ->
  majority total items
  = Ok (option_map fst (find (fun kv => total <? 2 * snd kv) items)).
Proof.
  intros H. induction items as [|[c v] items IH]; cbn [majority find].
  - reflexivity.
  - rewrite (exceeds_half_exact _ _ H). cbn [snd].
    destruct (total <? 2 * v); [reflexivity | exact IH].
Qed.

(** With non-negative tallies at most one candidate is above half. *)
Lemma find_majority_unique (total : Z) (items : counter) (c : str) (v : Z) :
  Forall (fun x => 0 <= x) (values items) ->
  sum (values items) <= total ->
  In (c, v) items -> total < 2 * v ->
  find (fun kv => total <? 2 * snd kv) items = Some (c, v).
Proof.
  induction items as [|[c1 v1] items IH]; intros Hpos Hsum Hin Hmaj;
    [destruct Hin|].
  unfold values in *. cbn [map snd] in *. rewrite sum_cons in Hsum.
  inversion Hpos as [|? ? Hv1 Hrest]; subst.
  cbn [find snd]. destruct Hin as [Heq | Hin].
  - inversion Heq; subst.
    replace (total <? 2 * v) with true by (symmetry; apply Z.ltb_lt; lia).
    reflexivity.
  - assert (Hv : v <= sum (map snd items)).
    { apply sum_ge_member; [assumption|].
      change v with (snd (c, v)). now apply in_map. }
    destruct (total <? 2 * v1) eqn:E.
    + apply Z.ltb_lt in E. lia.
    + pose proof (sum_nonneg _ Hrest). apply IH; auto. lia.
Qed.

(** C4, as stated, fails on [huge_candidates], [huge_ballots] (valid
    input).  In round 1 the total is [2 ^ 54 + 7]; A has [2 ^ 53 + 4]
    votes, strictly more than half of it.  The double nearest to
    [total / 2] is [2 ^ 53 + 4], which A's tally does not exceed: no winner
    is declared in round 1, C is eliminated, and A is returned with a trail
    of two rounds. *)
Lemma irv_majority_counterexample :
  let tally := irv_tally huge_candidates huge_ballots in
  let total := sum (values tally) in
  valid_candidates huge_candidates
  /\ valid_ballots huge_candidates huge_ballots
  /\ In (cA, 2 ^ 53 + 4) tally
  /\ 0 < total /\ total < 2 * (2 ^ 53 + 4)
  /\ majority total tally = Ok None
  /\ eliminated tally huge_candidates = [cC]
  /\ exists r1 r2,
      irv_winner huge_candidates huge_ballots = Some (Ok (cA, [r1; r2])).
Proof.
  cbv zeta. split; [|split; [|split; [|split; [|split; [|split; [|split]]]]]].
  - split; [apply has_duplicates_false; reflexivity | discriminate].
  - apply valid_ballotsb_sound. reflexivity.
  - left. reflexivity.
  - reflexivity.
  - reflexivity.
  - vm_compute. reflexivity.
  - vm_compute. reflexivity.
  - eexists. eexists. vm_compute. reflexivity.
Qed.

(* ================================================================== *)
(** * Borda                                                            *)
(* ================================================================== *)

Lemma counter_set_zero (k : str) (d : counter) :
  Forall (fun v => v = 0) (values d) ->
  Forall (fun v => v = 0) (values (counter_set k 0 d)).
Proof.
  induction d as [|[k' v] d IH]; simpl; intros H.
  - repeat constructor.
  - inversion H; subst.
    destruct (str_eqb k k'); simpl; constructor; auto.
Qed.

Lemma zero_scores_values (candidates : list str) :
  Forall (fun v => v = 0) (values (zero_scores candidates)).
Proof.
  unfold zero_scores.
  assert (H : Forall (fun v => v = 0) (values [])) by constructor.
  revert H. generalize (@nil (str * Z)).
  induction candidates as [|c cs IH]; intros d Hd; simpl.
  - assumption.
  - apply IH. now apply counter_set_zero.
Qed.

Lemma sum_zeros (l : list Z) : Forall (fun v => v = 0) l -> sum l = 0.
Proof.
  induction 1 as [|x l Hx _ IH].
  - reflexivity.
  - rewrite sum_cons. lia.
Qed.

(** The points handed out by one ballot, from position [idx] on. *)
Lemma borda_ballot_sum (max_points count : Z) (ranking : list str) :
  forall (idx : Z) (scores : counter),
    2 * sum (values (borda_ballot max_points count idx ranking scores))
    = 2 * sum (values scores)
      + count * Z.of_nat (length ranking)
        * (2 * (max_points - idx) - (Z.of_nat (length ranking) - 1)).
Proof.
  induction ranking as [|c r IH]; intros idx scores.
  - simpl. lia.
  - cbn [borda_ballot length]. rewrite IH, counter_sum_add.
    rewrite Nat2Z.inj_succ. ring.
Qed.

(** C9.  For a single ballot of weight [w] whose ranking is a permutation
    of the candidates, the scores the Borda engine returns add up to
    [w * maxPoints * (maxPoints + 1) / 2], [maxPoints] being
    [len(candidates) - 1]. *)
Theorem borda_single_ballot_sum (candidates ranking : list str) (w : Z)
    (Hperm : Permutation ranking candidates) :
  let max_points := Z.of_nat (length candidates) - 1 in
  sum (values (borda_winner candidates [(w, ranking)]))
  = w * max_points * (max_points + 1) / 2.
Proof.
  cbv zeta. unfold borda_winner. cbn [fold_left].
  pose proof (borda_ballot_sum (Z.of_nat (length candidates) - 1) w ranking
                0 (zero_scores candidates)) as H.
  rewrite (sum_zeros _ (zero_scores_values candidates)) in H.
  rewrite (Permutation_length Hperm) in H.
  set (total := sum (values (borda_ballot _ w 0 ranking _))) in *.
  set (n := Z.of_nat (length candidates)) in *.
  replace (w * (n - 1) * (n - 1 + 1)) with (total * 2) by lia.
  now rewrite Z.div_mul.
Qed.

Lemma borda_single_ballot_sum_witness :
  Permutation [Bob; Diego; Chen; Alice] demo_candidates
  /\ sum (values (borda_winner demo_candidates
                    [(8, [Bob; Diego; Chen; Alice])])) = 48.
Proof.
  assert (Hperm : Permutation [Bob; Diego; Chen; Alice] demo_candidates).
  { unfold demo_candidates.
    apply Permutation_sym.
    apply perm_trans with ([Bob; Alice; Chen; Diego]); [apply perm_swap|].
    apply perm_skip.
    apply perm_trans with ([Chen; Alice; Diego]); [apply perm_swap|].
    apply perm_trans with ([Chen; Diego; Alice]);
      [apply perm_skip, perm_swap|].
    apply perm_swap. }
  split; [exact Hperm|].
  exact (borda_single_ballot_sum demo_candidates [Bob; Diego; Chen; Alice]
           8 Hperm).
Defined.

(* ================================================================== *)
(** * Condorcet                                                        *)
(* ================================================================== *)

Lemma counter_get_touch (k k' : str) (d : counter) :
  counter_get k (counter_touch k' d) = counter_get k d.
Proof.
  induction d as [|[k0 v] d IH]; simpl.
  - destruct (str_eqb k k'); reflexivity.
  - destruct (str_eqb k' k0); simpl; [reflexivity|].
    destruct (str_eqb k k0); [reflexivity | exact IH].
Qed.

Lemma matrix_row_update (a a' : str) (f : counter -> counter) (m : matrix) :
  matrix_row a (matrix_update a' f m)
  = if str_eqb a a' then f (matrix_row a m) else matrix_row a m.
Proof.
  induction m as [|[a0 row] m IH]; simpl.
  - destruct (str_eqb a a'); reflexivity.
  - destruct (str_eqb a' a0) eqn:E0; simpl.
    + apply str_eqb_eq in E0. subst a0.
      destruct (str_eqb a a'); reflexivity.
    + destruct (str_eqb a a0) eqn:E1.
      * apply str_eqb_eq in E1. subst a0.
        destruct (str_eqb a a') eqn:E2; [|reflexivity].
        apply str_eqb_eq in E2. subst. now rewrite str_eqb_refl in E0.
      * exact IH.
Qed.

(** Reading an entry stores defaults but changes no entry. *)
Lemma pairwise_read_same (a b : str) (m : matrix) :
  same_entries m (snd (pairwise_read a b m)).
Proof.
  intros x y. unfold pairwise_read, pairwise_get. cbn [snd].
  rewrite matrix_row_update. destruct (str_eqb x a); [|reflexivity].
  apply counter_get_touch.
Qed.

Lemma same_entries_refl (m : matrix) : same_entries m m.
Proof. intros x y. reflexivity. Qed.

Lemma same_entries_trans (m1 m2 m3 : matrix) :
  same_entries m1 m2 -> same_entries m2 m3 -> same_entries m1 m3.
Proof. intros H12 H23 x y. now rewrite H23, H12. Qed.

Lemma same_entries_beats (m m' : matrix) (a b : str) :
  same_entries m m' -> beats m' a b = beats m a b.
Proof. intros H. unfold beats. now rewrite !H. Qed.

Lemma same_entries_wins (m m' : matrix) (candidates : list str) (a : str) :
  same_entries m m' -> wins m' candidates a = wins m candidates a.
Proof.
  intros H. unfold wins. f_equal. f_equal. apply filter_ext.
  intros b. now apply same_entries_beats.
Qed.

(** One comparison: the matrix keeps its entries, and [a] gets a victory
    exactly when it beats [b]. *)
Lemma compare_pair_spec (a b : str) (m : matrix) (victories : counter) :
  same_entries m (fst (compare_pair a (m, victories) b))
  /\ snd (compare_pair a (m, victories) b)
     = if beats m a b then counter_add a 1 victories else victories.
Proof.
  unfold compare_pair, beats. destruct (str_eqb a b) eqn:E; cbn [negb andb].
  - split; [apply same_entries_refl | reflexivity].
  - cbn [pairwise_read].
    pose proof (pairwise_read_same a b m) as H1.
    pose proof (pairwise_read_same b a (snd (pairwise_read a b m))) as H2.
    cbn [pairwise_read snd] in H1, H2.
    rewrite (H1 b a).
    destruct (pairwise_get b a m <? pairwise_get a b m); cbn [fst snd];
      (split; [eapply same_entries_trans; eassumption | reflexivity]).
Qed.

(** The inner loop for a fixed [a]. *)
Lemma compare_all_spec (a : str) (bs : list str) :
  forall (m : matrix) (victories : counter),
    let st := fold_left (compare_pair a) bs (m, victories) in
    same_entries m (fst st)
    /\ forall c, counter_get c (snd st)
                 = counter_get c victories
                   + if str_eqb c a then wins m bs a else 0.
Proof.
  induction bs as [|b bs IH]; intros m victories; cbn [fold_left].
  - split; [apply same_entries_refl|].
    intros c. unfold wins. simpl. destruct (str_eqb c a); lia.
  - destruct (compare_pair_spec a b m victories) as [Hm Hv].
    destruct (compare_pair a (m, victories) b) as [m1 v1].
    cbn [fst snd] in Hm, Hv.
    destruct (IH m1 v1) as [Hm' Hv']. cbv zeta in *.
    split; [eapply same_entries_trans; eassumption|].
    intros c. rewrite Hv'. rewrite (same_entries_wins m m1 bs a Hm).
    unfold wins. cbn [filter]. subst v1.
    destruct (beats m a b); cbn [length].
    + rewrite counter_get_add.
      destruct (str_eqb c a) eqn:E.
      * apply str_eqb_eq in E. subst c. lia.
      * lia.
    + destruct (str_eqb c a); lia.
Qed.

(** The two nested loops, over a duplicate-free list [cs] of first
    arguments. *)
Lemma count_victories_spec (candidates cs : list str) :
  NoDup cs ->
  forall (m : matrix) (victories : counter),
    let st := fold_left (fun st a => fold_left (compare_pair a) candidates st)
                cs (m, victories) in
    same_entries m (fst st)
    /\ forall c, counter_get c (snd st)
                 = counter_get c victories
                   + if mem c cs then wins m candidates c else 0.
Proof.
  induction 1 as [|a cs Hnotin Hnd IH]; intros m victories; cbn [fold_left].
  - split; [apply same_entries_refl | intros c; simpl; lia].
  - destruct (compare_all_spec a candidates m victories) as [Hm Hv].
    destruct (fold_left (compare_pair a) candidates (m, victories))
      as [m1 v1].
    cbn [fst snd] in Hm, Hv.
    destruct (IH m1 v1) as [Hm' Hv']. cbv zeta in *.
    split; [eapply same_entries_trans; eassumption|].
    intros c. rewrite Hv', Hv. rewrite (same_entries_wins m m1 _ c Hm).
    unfold mem. cbn [existsb]. fold (mem c cs).
    destruct (str_eqb c a) eqn:E; cbn [orb].
    + apply str_eqb_eq in E. subst c.
      replace (mem a cs) with false
        by (symmetry; apply mem_false; assumption).
      lia.
    + lia.
Qed.

Lemma count_victories_ok (candidates : list str) (m : matrix) :
  NoDup candidates ->
  same_entries m (fst (count_victories candidates m))
  /\ forall c, counter_get c (snd (count_victories candidates m))
               = if mem c candidates then wins m candidates c else 0.
Proof.
  intros Hnd. unfold count_victories.
  destruct (count_victories_spec candidates candidates Hnd m []) as [Hm Hv].
  split; [exact Hm|]. intros c. exact (Hv c).
Qed.

Lemma find_first {A} (p : A -> bool) (l : list A) (x : A) :
  find p l = Some x ->
  exists before after,
    l = before ++ x :: after /\ p x = true
    /\ forall y, In y before -> p y = false.
Proof.
  induction l as [|y l IH]; simpl; [discriminate|].
  destruct (p y) eqn:E.
  - intros H. injection H as <-. exists [], l. repeat split; auto.
    intros z [].
  - intros H. destruct (IH H) as [before [after [-> [Hp Hb]]]].
    exists (y :: before), after. repeat split; auto.
    intros z [<- | Hz]; auto.
Qed.

(** C5.  For every valid input, the victory count of each candidate [a] is
    the number of other candidates [b] with
    [pairwise[a][b] > pairwise[b][a]] (a tie counts for neither), and the
    winner is the first candidate, in the order of the candidate list,
    whose count is [len(candidates) - 1]; [None] when there is none. *)
Theorem condorcet_winner_spec (candidates : list str)
    (ballots : list ballot) (winner : option str) (pairwise : matrix)
    (victories : counter)
    (Hvalid : valid_candidates candidates)
    (Hrun : condorcet_winner candidates ballots
            = (winner, pairwise, victories)) :
  let n := Z.of_nat (length candidates) in
  same_entries (pairwise_matrix ballots) pairwise
  /\ (forall a, In a candidates ->
        counter_get a victories
        = Z.of_nat
            (length
               (filter
                  (fun b => negb (str_eqb a b)
                            && (pairwise_get b a pairwise
                                <? pairwise_get a b pairwise))
                  candidates)))
  /\ match winner with
     | Some c =>
         exists before after,
           candidates = before ++ c :: after
           /\ counter_get c victories = n - 1
           /\ forall x, In x before -> counter_get x victories <> n - 1
     | None =>
         forall c, In c candidates -> counter_get c victories <> n - 1
     end.
Proof.
  destruct Hvalid as [Hnd _]. cbv zeta.
  unfold condorcet_winner in Hrun.
  pose proof (count_victories_ok candidates (pairwise_matrix ballots) Hnd)
    as [Hm Hv].
  destruct (count_victories candidates (pairwise_matrix ballots))
    as [m1 v1].
  cbn [fst snd] in Hm, Hv. injection Hrun as Hw <- <-.
  split; [exact Hm|]. split.
  - intros a Ha. rewrite Hv.
    replace (mem a candidates) with true by (symmetry; now apply mem_In).
    rewrite <- (same_entries_wins _ _ candidates a Hm). reflexivity.
  - destruct winner as [c|].
    + apply find_first in Hw as [before [after [Heq [Hp Hb]]]].
      exists before, after. split; [assumption|]. split.
      * now apply Z.eqb_eq.
      * intros x Hx. apply Z.eqb_neq. now apply Hb.
    + intros c Hc. apply Z.eqb_neq.
      exact (find_none _ _ Hw c Hc).
Qed.

Lemma condorcet_winner_spec_witness :
  valid_candidates tie_candidates
  /\ exists pairwise victories,
      condorcet_winner tie_candidates [(2, [cA; cB]); (1, [cB; cA])]
      = (Some cA, pairwise, victories)
      /\ counter_get cA victories = 1
      /\ counter_get cB victories = 0.
Proof.
  assert (Hvalid : valid_candidates tie_candidates)
    by (split; [apply has_duplicates_false; reflexivity | discriminate]).
  split; [exact Hvalid|].
  destruct (condorcet_winner tie_candidates [(2, [cA; cB]); (1, [cB; cA])])
    as [[w m] v] eqn:Hrun.
  destruct (condorcet_winner_spec _ _ w m v Hvalid Hrun) as [_ [Hcount _]].
  exists m, v.
  rewrite (Hcount cA) by (left; reflexivity).
  rewrite (Hcount cB) by (right; left; reflexivity).
  vm_compute in Hrun. injection Hrun as <- <- <-.
  repeat split.
Defined.

(* ================================================================== *)
(** * Strings                                                          *)
(* ================================================================== *)

Lemma lstrip_head (s : str) (c : ascii) (r : str) :
  lstrip s = c :: r -> is_space c = false.
Proof.
  induction s as [|d s IH]; simpl; [discriminate|].
  destruct (is_space d) eqn:E; [exact IH|].
  intros H. injection H as <- _. exact E.
Qed.

Lemma lstrip_fixed (s : str) :
  match s with [] => True | c :: _ => is_space c = false end ->
  lstrip s = s.
Proof.
  destruct s as [|c r]; simpl; [reflexivity|]. now intros ->.
Qed.

Lemma lstrip_idem (s : str) : lstrip (lstrip s) = lstrip s.
Proof.
  apply lstrip_fixed. destruct (lstrip s) as [|c r] eqn:E; [exact I|].
  exact (lstrip_head s c r E).
Qed.

Lemma lstrip_snoc (x : str) (c : ascii) :
  is_space c = false -> lstrip (x ++ [c]) = lstrip x ++ [c].
Proof.
  intros Hc. induction x as [|d x IH]; simpl.
  - now rewrite Hc.
  - destruct (is_space d); [exact IH | reflexivity].
Qed.

Lemma rstrip_cons (c : ascii) (r : str) :
  is_space c = false -> rstrip (c :: r) = c :: rstrip r.
Proof.
  intros Hc. unfold rstrip. cbn [rev].
  rewrite (lstrip_snoc _ _ Hc), rev_app_distr. reflexivity.
Qed.

Lemma rstrip_idem (s : str) : rstrip (rstrip s) = rstrip s.
Proof.
  unfold rstrip. now rewrite rev_involutive, lstrip_idem.
Qed.

(** A stripped string is empty or starts with a character that is not
    white space. *)
Lemma strip_head (s : str) :
  match strip s with [] => True | c :: _ => is_space c = false end.
Proof.
  unfold strip. destruct (lstrip s) as [|c r] eqn:E.
  - exact I.
  - pose proof (lstrip_head s c r E) as Hc.
    rewrite (rstrip_cons c r Hc). exact Hc.
Qed.

Lemma strip_idem (s : str) : strip (strip s) = strip s.
Proof.
  unfold strip at 1. rewrite (lstrip_fixed (strip s) (strip_head s)).
  unfold strip. apply rstrip_idem.
Qed.

Lemma lstrip_In (s : str) (x : ascii) : In x (lstrip s) -> In x s.
Proof.
  induction s as [|d s IH]; simpl; [tauto|].
  destruct (is_space d); [intros H; right; now apply IH | tauto].
Qed.

Lemma strip_In (s : str) (x : ascii) : In x (strip s) -> In x s.
Proof.
  unfold strip, rstrip. intros H. apply in_rev in H.
  apply lstrip_In in H. apply in_rev in H. now apply lstrip_In.
Qed.

Lemma split_not_nil (sep : ascii) (s : str) : split sep s <> [].
Proof.
  destruct s as [|c s]; simpl; [discriminate|].
  destruct (Ascii.eqb c sep); [discriminate|].
  destruct (split sep s); discriminate.
Qed.

(** No piece of a split contains the separator. *)
Lemma split_no_sep (sep : ascii) (s : str) :
  Forall (fun t => ~ In sep t) (split sep s).
Proof.
  induction s as [|c s IH]; simpl.
  - repeat constructor. intros [].
  - destruct (Ascii.eqb c sep) eqn:E.
    + constructor; [intros [] | exact IH].
    + destruct (split sep s) as [|t ts]; inversion IH; subst.
      * repeat constructor. intros [-> | []].
        now rewrite Ascii.eqb_refl in E.
      * constructor; [|assumption].
        intros [-> | Hin]; [now rewrite Ascii.eqb_refl in E | contradiction].
Qed.

Lemma split_piece (sep : ascii) (x rest : str) :
  ~ In sep x -> split sep (x ++ sep :: rest) = x :: split sep rest.
Proof.
  induction x as [|c x IH]; simpl; intros H.
  - now rewrite Ascii.eqb_refl.
  - destruct (Ascii.eqb c sep) eqn:E.
    + apply Ascii.eqb_eq in E. subst. exfalso. apply H. now left.
    + rewrite IH by tauto. reflexivity.
Qed.

Lemma split_whole (sep : ascii) (x : str) :
  ~ In sep x -> split sep x = [x].
Proof.
  induction x as [|c x IH]; simpl; intros H.
  - reflexivity.
  - destruct (Ascii.eqb c sep) eqn:E.
    + apply Ascii.eqb_eq in E. subst. exfalso. apply H. now left.
    + rewrite IH by tauto. reflexivity.
Qed.

(** Splitting what [join] has joined gives the pieces back. *)
Lemma split_join (sep : ascii) (l : list str) :
  l <> [] -> Forall (fun t => ~ In sep t) l ->
  split sep (join sep l) = l.
Proof.
  induction l as [|x l IH]; [congruence|]. intros _ H.
  inversion H as [|? ? Hx Hl]; subst.
  destruct l as [|y l].
  - simpl. now apply split_whole.
  - change (join sep (x :: y :: l)) with (x ++ sep :: join sep (y :: l)).
    rewrite split_piece by assumption. f_equal.
    apply IH; [discriminate | assumption].
Qed.

Lemma subseq_map_filter {A B} (f : A -> B) (p : A -> bool) (l : list A) :
  subseq (map f (filter p l)) (map f l).
Proof.
  induction l as [|x l IH]; simpl.
  - constructor.
  - destruct (p x); simpl; now constructor.
Qed.

Lemma truthy_true {A} (l : list A) : truthy l = true <-> l <> [].
Proof. destruct l; simpl; split; congruence. Qed.

(** Tokens that are already stripped and non-empty are kept as they are. *)
Lemma stripped_tokens_fixed (l : list str) :
  Forall (fun c => strip c = c /\ c <> []) l -> stripped_tokens l = l.
Proof.
  unfold stripped_tokens. induction 1 as [|c l [Hc Hne] _ IH]; simpl.
  - reflexivity.
  - rewrite Hc. destruct c as [|a c]; [congruence|]. simpl.
    rewrite Hc. f_equal. exact IH.
Qed.

Lemma stripped_tokens_In (pieces : list str) (c : str) :
  In c (stripped_tokens pieces) <->
  exists t, In t pieces /\ strip t = c /\ c <> [].
Proof.
  unfold stripped_tokens. rewrite in_map_iff. split.
  - intros [t [Heq Hin]]. apply filter_In in Hin as [Hin Htr].
    exists t. repeat split; auto. subst c. now apply truthy_true.
  - intros [t [Hin [Heq Hne]]]. exists t. split; [assumption|].
    apply filter_In. split; [assumption|].
    apply truthy_true. now rewrite Heq.
Qed.

(* ================================================================== *)
(** * parse_candidates                                                 *)
(* ================================================================== *)

Lemma parse_candidates_Ok (raw : str) (cs : list str) :
  parse_candidates raw = Ok cs <->
  cs = stripped_tokens (split comma raw) /\ NoDup cs /\ cs <> [].
Proof.
  unfold parse_candidates.
  destruct (has_duplicates (stripped_tokens (split comma raw))) eqn:Ed.
  - split; [discriminate|]. intros [-> [Hnd _]].
    apply has_duplicates_false in Hnd. congruence.
  - apply has_duplicates_false in Ed.
    destruct (stripped_tokens (split comma raw)) as [|c l] eqn:Et; simpl.
    + split; [discriminate|]. intros [-> [_ Hne]]. congruence.
    + split.
      * intros H. injection H as <-. repeat split; auto. discriminate.
      * intros [-> _]. reflexivity.
Qed.

(** C8.  When [parse_candidates] succeeds, the list it returns keeps the
    order of the input (it is a sub-sequence of the stripped pieces, with
    every non-empty one in it), has no duplicates, and parsing its
    comma-joined text returns the same list. *)
Theorem parse_candidates_roundtrip (raw : str) (cs : list str)
    (Hok : parse_candidates raw = Ok cs) :
  subseq cs (map strip (split comma raw))
  /\ (forall t, In t (split comma raw) -> strip t <> [] -> In (strip t) cs)
  /\ NoDup cs
  /\ parse_candidates (join comma cs) = Ok cs.
Proof.
  apply parse_candidates_Ok in Hok as [Heq [Hnd Hne]].
  split; [|split; [|split]].
  - subst cs. apply subseq_map_filter.
  - intros t Ht Hs. subst cs. apply stripped_tokens_In. now exists t.
  - exact Hnd.
  - apply parse_candidates_Ok. split; [|now split].
    assert (Hall : Forall (fun c => (strip c = c /\ c <> [])
                                    /\ ~ In comma c) cs).
    { apply Forall_forall. intros c Hc. rewrite Heq in Hc.
      apply stripped_tokens_In in Hc as [t [Ht [Hst Hcne]]].
      subst c. split; [split; [apply strip_idem | assumption]|].
      intros Hin. apply strip_In in Hin.
      pose proof (split_no_sep comma raw) as Hsep.
      rewrite Forall_forall in Hsep. exact (Hsep t Ht Hin). }
    apply Forall_and_inv in Hall as [Hfix Hsep].
    rewrite split_join by assumption.
    symmetry. now apply stripped_tokens_fixed.
Qed.

Lemma parse_candidates_roundtrip_witness :
  parse_candidates (py " Alice, Bob,, Chen ,Diego") = Ok demo_candidates
  /\ parse_candidates (join comma demo_candidates) = Ok demo_candidates.
Proof.
  assert (Hok : parse_candidates (py " Alice, Bob,, Chen ,Diego")
                = Ok demo_candidates) by reflexivity.
  split; [exact Hok|].
  apply (parse_candidates_roundtrip _ _ Hok).
Defined.

(* ================================================================== *)
(** * parse_ballots                                                    *)
(* ================================================================== *)

(** What a line that parses gives: the count read left of the colon,
    positive, and the tokens right of it, whatever their number. *)
Lemma parse_line_Ok (idx : nat) (line : str) (candidates : list str)
    (b : ballot) :
  parse_line idx line candidates = Ok b ->
  py_int (strip (fst (split1 colon line))) = Some (fst b)
  /\ snd b = ranking_of (snd (split1 colon line))
  /\ valid_ballot candidates b.
Proof.
  unfold parse_line.
  destruct (negb (contains colon line)); [discriminate|].
  destruct (split1 colon line) as [count_text ranking_text]. cbn [fst snd].
  destruct (py_int (strip count_text)) as [count|]; [|discriminate].
  destruct (count <=? 0) eqn:Ec; [discriminate|].
  destruct (has_duplicates (ranking_of ranking_text)) eqn:Ed; [discriminate|].
  destruct (filter (fun c => negb (mem c candidates))
              (ranking_of ranking_text)) as [|u us] eqn:Eu; [|discriminate].
  cbn [truthy]. intros H. injection H as <-. cbn [fst snd].
  split; [reflexivity|]. split; [reflexivity|]. repeat split; cbn [fst snd].
  - apply Z.leb_gt in Ec. lia.
  - now apply has_duplicates_false.
  - intros c Hc. apply mem_In.
    destruct (mem c candidates) eqn:Em; [reflexivity|].
    assert (Hin : In c (filter (fun c => negb (mem c candidates))
                          (ranking_of ranking_text))).
    { apply filter_In. split; [assumption | now rewrite Em]. }
    rewrite Eu in Hin. destruct Hin.
Qed.

(** The loop over the lines: every ballot of the result was already there
    or comes from a line, and every non-blank line gives one. *)
Lemma parse_lines_Ok (candidates : list str) (lines : list str) :
  forall (idx : nat) (acc ballots : list ballot),
    parse_lines idx lines candidates acc = Ok ballots ->
    (forall b, In b acc -> In b ballots)
    /\ (forall b, In b ballots ->
          In b acc \/ exists i line, In line lines
                                     /\ parse_line i line candidates = Ok b)
    /\ (forall line, In line lines -> strip line <> [] ->
          exists i b, parse_line i line candidates = Ok b /\ In b ballots).
Proof.
  induction lines as [|line rest IH]; intros idx acc ballots;
    cbn [parse_lines].
  - intros H. injection H as <-. repeat split; auto. intros line [].
  - destruct (truthy (strip line)) eqn:Et; cbn [negb].
    + destruct (parse_line idx line candidates) as [b0|e] eqn:Ep;
        [|discriminate].
      intros H. destruct (IH _ _ _ H) as [Hacc [Hfrom Hline]].
      split; [|split].
      * intros b Hb. apply Hacc. apply in_or_app. now left.
      * intros b Hb. destruct (Hfrom b Hb) as [Hin | [i [l [Hl Hp]]]].
        -- apply in_app_or in Hin as [Hin | [<- | []]]; [now left|].
           right. exists idx, line. split; [now left | assumption].
        -- right. exists i, l. split; [now right | assumption].
      * intros l [<- | Hl] Hne.
        -- exists idx, b0. split; [assumption|].
           apply Hacc. apply in_or_app. right. now left.
        -- now apply Hline.
    + intros H. destruct (IH _ _ _ H) as [Hacc [Hfrom Hline]].
      split; [assumption|]. split.
      * intros b Hb. destruct (Hfrom b Hb) as [Hin | [i [l [Hl Hp]]]];
          [now left|].
        right. exists i, l. split; [now right | assumption].
      * intros l [<- | Hl] Hne.
        -- destruct (strip line); [congruence | discriminate].
        -- now apply Hline.
Qed.

Lemma parse_ballots_Ok (raw : str) (candidates : list str)
    (ballots : list ballot) :
  parse_ballots raw candidates = Ok ballots ->
  parse_lines 1 (splitlines raw) candidates [] = Ok ballots
  /\ ballots <> [].
Proof.
  unfold parse_ballots.
  destruct (negb (truthy (strip raw))); [discriminate|].
  destruct (parse_lines 1 (splitlines raw) candidates []) as [bs|e];
    [|discriminate].
  destruct bs as [|b bs]; cbn [truthy negb]; [discriminate|].
  intros H. injection H as <-. split; [reflexivity | discriminate].
Qed.

(** What [parse_ballots] returns is valid input for the engines. *)
Lemma parse_ballots_valid (raw : str) (candidates : list str)
    (ballots : list ballot) :
  parse_ballots raw candidates = Ok ballots ->
  valid_ballots candidates ballots.
Proof.
  intros H. apply parse_ballots_Ok in H as [H Hne].
  split; [assumption|]. apply Forall_forall. intros b Hb.
  destruct (parse_lines_Ok _ _ _ _ _ H) as [_ [Hfrom _]].
  destruct (Hfrom b Hb) as [[] | [i [line [_ Hp]]]].
  now apply parse_line_Ok in Hp.
Qed.

(** C3, as stated, fails: the line [1:] has no token right of the colon,
    and [parse_ballots] returns the ballot it gives, with an empty
    ranking. *)
Lemma parse_ballots_empty_ranking_counterexample :
  ranking_of (snd (split1 colon (py "1:"))) = []
  /\ parse_ballots (py "1:") [cA] = Ok [(1, [])]
  /\ exists b, In b [(1, @nil str)] /\ snd b = [].
Proof.
  split; [reflexivity|]. split; [reflexivity|].
  exists (1, []). split; [now left | reflexivity].
Qed.

(** C3, amended.  [parse_ballots] does not reject an empty ranking: when
    it succeeds, every non-blank line whose text right of the colon yields
    no token has given a ballot of the returned list, with the positive
    count read left of the colon and the empty ranking. *)
Theorem parse_ballots_keeps_empty_ranking (raw : str)
    (candidates : list str) (ballots : list ballot) (line : str)
    (Hok : parse_ballots raw candidates = Ok ballots)
    (Hline : In line (splitlines raw))
    (Hnonblank : strip line <> [])
    (Hempty : ranking_of (snd (split1 colon line)) = []) :
  exists count,
    py_int (strip (fst (split1 colon line))) = Some count
    /\ 0 < count
    /\ In (count, []) ballots.
Proof.
  apply parse_ballots_Ok in Hok as [Hok _].
  destruct (parse_lines_Ok _ _ _ _ _ Hok) as [_ [_ Hlines]].
  destruct (Hlines line Hline Hnonblank) as [i [[count ranking] [Hp Hin]]].
  apply parse_line_Ok in Hp as [Hint [Hrank [Hpos _]]].
  cbn [fst snd] in *. rewrite Hempty in Hrank. subst ranking.
  exists count. auto.
Qed.

Lemma parse_ballots_keeps_empty_ranking_witness :
  parse_ballots (py "3: A > B, C") [cA; cB; cC] = Ok [(3, [cA; cB; cC])]
  /\ parse_ballots (py " +1_0 :") [cA] = Ok [(10, [])]
  /\ exists count,
      py_int (strip (fst (split1 colon (py " +1_0 :")))) = Some count
      /\ 0 < count
      /\ In (count, []) [(10, @nil str)].
Proof.
  split; [reflexivity|].
  assert (Hok : parse_ballots (py " +1_0 :") [cA] = Ok [(10, [])])
    by reflexivity.
  split; [exact Hok|].
  apply (parse_ballots_keeps_empty_ranking _ _ _ (py " +1_0 :") Hok).
  - left. reflexivity.
  - discriminate.
  - reflexivity.
Defined.

(* ================================================================== *)
(** * More on parse_candidates                                         *)
(* ================================================================== *)

Lemma lstrip_keeps (s : str) (c : ascii) :
  In c s -> is_space c = false -> In c (lstrip s).
Proof.
  induction s as [|d s IH]; simpl; [tauto|].
  intros [-> | Hin] Hc.
  - rewrite Hc. now left.
  - destruct (is_space d); [now apply IH | now right].
Qed.

Lemma strip_keeps (s : str) (c : ascii) :
  In c s -> is_space c = false -> In c (strip s).
Proof.
  intros Hin Hc. unfold strip, rstrip. apply in_rev. rewrite rev_involutive.
  apply lstrip_keeps; [|assumption]. apply in_rev. rewrite rev_involutive.
  now apply lstrip_keeps.
Qed.

(** A string strips to nothing exactly when it is all white space. *)
Lemma strip_nil_iff (s : str) :
  strip s = [] <-> Forall (fun c => is_space c = true) s.
Proof.
  split.
  - intros H. apply Forall_forall. intros c Hc.
    destruct (is_space c) eqn:E; [reflexivity|].
    pose proof (strip_keeps s c Hc E) as Hin. rewrite H in Hin. destruct Hin.
  - intros H. pose proof (strip_head s) as Hh.
    destruct (strip s) as [|c r] eqn:E; [reflexivity|].
    rewrite Forall_forall in H.
    rewrite (H c) in Hh; [discriminate|].
    apply strip_In. rewrite E. now left.
Qed.

Lemma rstrip_last (s : str) (c : ascii) (r : str) :
  rstrip s = r ++ [c] -> is_space c = false.
Proof.
  unfold rstrip. intros H.
  apply (f_equal (@rev ascii)) in H.
  rewrite rev_involutive, rev_app_distr in H. simpl in H.
  exact (lstrip_head _ _ _ H).
Qed.

(** X1.  Every name [parse_candidates] returns is non-empty, has no comma
    and neither starts nor ends with white space (stripping it changes
    nothing), and there is at least one. *)
Theorem parse_candidates_wellformed (raw : str) (cs : list str)
    (Hok : parse_candidates raw = Ok cs) :
  cs <> []
  /\ Forall (fun c => c <> []
                      /\ ~ In comma c
                      /\ strip c = c
                      /\ (forall a r, c = a :: r -> is_space a = false)
                      /\ (forall r a, c = r ++ [a] -> is_space a = false))
       cs.
Proof.
  apply parse_candidates_Ok in Hok as [Heq [_ Hne]].
  split; [assumption|]. apply Forall_forall. intros c Hc.
  rewrite Heq in Hc. apply stripped_tokens_In in Hc as [t [Ht [Hst Hcne]]].
  split; [assumption|]. split; [|split; [|split]].
  - intros Hin. rewrite <- Hst in Hin. apply strip_In in Hin.
    pose proof (split_no_sep comma raw) as Hsep.
    rewrite Forall_forall in Hsep. exact (Hsep t Ht Hin).
  - rewrite <- Hst. apply strip_idem.
  - intros a r Hc. pose proof (strip_head t) as Hh.
    rewrite Hst, Hc in Hh. exact Hh.
  - intros r a Hc. apply (rstrip_last (lstrip t) a r).
    fold (strip t). now rewrite Hst.
Qed.

Lemma parse_candidates_wellformed_witness :
  parse_candidates (py "  Ann Lee ,, Bo  ") = Ok [py "Ann Lee"; py "Bo"]
  /\ Forall (fun c => c <> [] /\ ~ In comma c /\ strip c = c)
       [py "Ann Lee"; py "Bo"].
Proof.
  assert (Hok : parse_candidates (py "  Ann Lee ,, Bo  ")
                = Ok [py "Ann Lee"; py "Bo"]) by reflexivity.
  split; [exact Hok|].
  destruct (parse_candidates_wellformed _ _ Hok) as [_ H].
  eapply Forall_impl; [|exact H]. simpl. tauto.
Defined.

(** X2.  [parse_candidates] fails in two ways only: with "must be unique"
    exactly when two non-blank pieces have the same stripped text, and with
    "at least one candidate" exactly when every piece between commas is
    white space. *)
Theorem parse_candidates_errors (raw : str) :
  (parse_candidates raw = Raise (ValueError CandidatesNotUnique)
   <-> ~ NoDup (stripped_tokens (split comma raw)))
  /\ (parse_candidates raw = Raise (ValueError NoCandidates)
      <-> Forall (fun t => Forall (fun c => is_space c = true) t)
            (split comma raw))
  /\ (forall e, parse_candidates raw = Raise e ->
        e = ValueError CandidatesNotUnique \/ e = ValueError NoCandidates).
Proof.
  assert (Hnil : stripped_tokens (split comma raw) = []
                 <-> Forall (fun t => Forall (fun c => is_space c = true) t)
                       (split comma raw)).
  { rewrite Forall_forall. split.
    - intros H t Ht. apply strip_nil_iff.
      destruct (strip t) as [|a r] eqn:E; [reflexivity|].
      assert (Hin : In (strip t) (stripped_tokens (split comma raw))).
      { apply stripped_tokens_In. exists t. rewrite E.
        repeat split; auto. discriminate. }
      rewrite H in Hin. destruct Hin.
    - intros H. destruct (stripped_tokens (split comma raw)) as [|c l] eqn:E;
        [reflexivity|].
      assert (Hin : In c (stripped_tokens (split comma raw)))
        by (rewrite E; now left).
      apply stripped_tokens_In in Hin as [t [Ht [Hst Hne]]].
      apply H, strip_nil_iff in Ht. congruence. }
  unfold parse_candidates.
  destruct (has_duplicates (stripped_tokens (split comma raw))) eqn:Ed.
  - assert (Hdup : ~ NoDup (stripped_tokens (split comma raw))).
    { intros Hnd. apply has_duplicates_false in Hnd. congruence. }
    split; [tauto|]. split.
    + split; [discriminate|]. intros H. apply Hnil in H.
      rewrite H in Hdup. exfalso. apply Hdup. constructor.
    + intros e H. injection H as <-. now left.
  - apply has_duplicates_false in Ed.
    destruct (stripped_tokens (split comma raw)) as [|c l] eqn:Et; simpl.
    + split; [split; [discriminate | tauto]|]. split.
      * split; [intros _; now apply Hnil | reflexivity].
      * intros e H. injection H as <-. now right.
    + split; [split; [discriminate | tauto]|]. split.
      * split; [discriminate|]. intros H. apply Hnil in H. discriminate.
      * intros e H. discriminate.
Qed.

(* ================================================================== *)
(** * More on parse_ballots                                            *)
(* ================================================================== *)

Lemma linebreak_is_space (c : ascii) :
  is_linebreak c = true -> is_space c = true.
Proof.
  destruct c as [b0 b1 b2 b3 b4 b5 b6 b7].
  destruct b0, b1, b2, b3, b4, b5, b6, b7; intros H;
    try reflexivity; discriminate H.
Qed.

(** A character that is no line boundary is in one of the lines. *)
Lemma splitlines_from_covers (n : nat) :
  forall (s cur : str) (c : ascii),
    (length s <= n)%nat -> is_linebreak c = false ->
    In c cur \/ In c s ->
    exists line, In line (splitlines_from cur s) /\ In c line.
Proof.
  induction n as [|n IH]; intros s cur c Hlen Hc Hin.
  - destruct s; [|simpl in Hlen; lia]. destruct Hin as [Hin | []].
    destruct cur as [|a cur]; [destruct Hin|].
    exists (rev (a :: cur)). split; [now left | now apply -> in_rev].
  - destruct s as [|d s].
    + destruct Hin as [Hin | []].
      destruct cur as [|a cur]; [destruct Hin|].
      exists (rev (a :: cur)). split; [now left | now apply -> in_rev].
    + simpl in Hlen. cbn [splitlines_from].
      destruct (is_linebreak d) eqn:Ed.
      * destruct Hin as [Hin | [-> | Hin]]; [| congruence |].
        -- exists (rev cur). split; [now left | now apply -> in_rev].
        -- assert (Hrest : forall t, (length t <= n)%nat -> In c t ->
                     exists line, In line (rev cur :: splitlines_from [] t)
                                  /\ In c line).
           { intros t Ht Hct.
             destruct (IH t [] c Ht Hc (or_intror Hct)) as [l [Hl Hcl]].
             exists l. split; [now right | assumption]. }
           destruct s as [|c2 s2]; [destruct Hin|].
           destruct ((code d =? 13)%N && (code c2 =? 10)%N) eqn:Ecr.
           ++ apply andb_true_iff in Ecr as [_ E2].
              destruct Hin as [-> | Hin].
              ** exfalso. unfold is_linebreak in Hc.
                 apply N.eqb_eq in E2. rewrite E2 in Hc. discriminate.
              ** apply Hrest; [simpl in Hlen; lia | assumption].
           ++ apply Hrest; [lia | assumption].
      * apply IH; [lia | assumption|].
        destruct Hin as [Hin | [-> | Hin]]; [left; now right | | now right].
        left. now left.
Qed.

(** Text that is not all white space has a line that is not skipped. *)
Lemma splitlines_nonblank (raw : str) :
  strip raw <> [] ->
  exists line, In line (splitlines raw) /\ strip line <> [].
Proof.
  intros Hne. pose proof (strip_head raw) as Hh.
  destruct (strip raw) as [|c r] eqn:E; [congruence|].
  assert (Hin : In c raw) by (apply strip_In; rewrite E; now left).
  assert (Hlb : is_linebreak c = false).
  { destruct (is_linebreak c) eqn:El; [|reflexivity].
    apply linebreak_is_space in El. congruence. }
  destruct (splitlines_from_covers (length raw) raw [] c (le_n _) Hlb
              (or_intror Hin)) as [line [Hline Hc]].
  exists line. split; [exact Hline|].
  intros Hs. pose proof (strip_keeps line c Hc Hh) as Hk.
  rewrite Hs in Hk. destruct Hk.
Qed.

(** The message of an error of [parse_line] carries the line number. *)
Lemma parse_line_Raise (idx : nat) (line : str) (candidates : list str)
    (e : exn) :
  parse_line idx line candidates = Raise e -> error_line e = Some idx.
Proof.
  unfold parse_line.
  destruct (negb (contains colon line)); [intros H; now injection H as <-|].
  destruct (split1 colon line) as [count_text ranking_text].
  destruct (py_int (strip count_text)) as [count|];
    [|intros H; now injection H as <-].
  destruct (count <=? 0); [intros H; now injection H as <-|].
  destruct (has_duplicates (ranking_of ranking_text));
    [intros H; now injection H as <-|].
  destruct (truthy _); [intros H; now injection H as <-|discriminate].
Qed.

Lemma parse_lines_Raise (candidates : list str) (lines : list str) :
  forall (idx : nat) (acc : list ballot) (e : exn),
    parse_lines idx lines candidates acc = Raise e ->
    exists k line,
      nth_error lines k = Some line
      /\ strip line <> []
      /\ parse_line (idx + k) line candidates = Raise e
      /\ forall j l, (j < k)%nat -> nth_error lines j = Some l ->
           strip l = [] \/ exists b, parse_line (idx + j) l candidates = Ok b.
Proof.
  induction lines as [|line rest IH]; intros idx acc e; cbn [parse_lines];
    [discriminate|].
  destruct (truthy (strip line)) eqn:Et; cbn [negb].
  - destruct (parse_line idx line candidates) as [b0|e0] eqn:Ep.
    + intros H. destruct (IH _ _ _ H) as [k [l [Hnth [Hne [Hp Hbefore]]]]].
      exists (S k), l. rewrite Nat.add_succ_r. split; [exact Hnth|].
      split; [exact Hne|]. split; [exact Hp|].
      intros j l' Hj Hl'. destruct j as [|j].
      * simpl in Hl'. injection Hl' as <-. right. exists b0.
        now rewrite Nat.add_0_r.
      * rewrite Nat.add_succ_r. apply (Hbefore j l'); [lia | exact Hl'].
    + intros H. injection H as <-. exists 0%nat, line.
      rewrite Nat.add_0_r. split; [reflexivity|].
      split; [now apply truthy_true|]. split; [exact Ep|].
      intros j l' Hj. lia.
  - intros H. destruct (IH _ _ _ H) as [k [l [Hnth [Hne [Hp Hbefore]]]]].
    exists (S k), l. rewrite Nat.add_succ_r. split; [exact Hnth|].
    split; [exact Hne|]. split; [exact Hp|].
    intros j l' Hj Hl'. destruct j as [|j].
    + simpl in Hl'. injection Hl' as <-. left.
      destruct (strip line); [reflexivity | discriminate].
    + rewrite Nat.add_succ_r. apply (Hbefore j l'); [lia | exact Hl'].
Qed.

(** The ballots appended by the loop, one for each line that is not
    skipped, in the order of the lines. *)
Lemma parse_lines_order (candidates : list str) (lines : list str) :
  forall (idx : nat) (acc ballots : list ballot),
    parse_lines idx lines candidates acc = Ok ballots ->
    exists new,
      ballots = acc ++ new
      /\ Forall2 (fun line b => exists i, parse_line i line candidates = Ok b)
           (filter nonblank lines) new.
Proof.
  induction lines as [|line rest IH]; intros idx acc ballots;
    cbn [parse_lines filter].
  - intros H. injection H as <-. exists []. rewrite app_nil_r.
    split; [reflexivity | constructor].
  - unfold nonblank at 1. destruct (truthy (strip line)) eqn:Et; cbn [negb].
    + destruct (parse_line idx line candidates) as [b0|e] eqn:Ep;
        [|discriminate].
      intros H. destruct (IH _ _ _ H) as [new [-> Hall]].
      exists (b0 :: new). rewrite <- app_assoc. split; [reflexivity|].
      constructor; [now exists idx | exact Hall].
    + intros H. exact (IH _ _ _ H).
Qed.

(** The last check of [parse_ballots] cannot fail: once the text is not
    blank, a line is parsed, and it gives a ballot or an error of its
    own. *)
Lemma parse_lines_not_empty (raw : str) (candidates : list str) :
  strip raw <> [] ->
  parse_lines 1 (splitlines raw) candidates [] <> Ok [].
Proof.
  intros Hne H. destruct (splitlines_nonblank raw Hne) as [line [Hl Hs]].
  destruct (parse_lines_Ok _ _ _ _ _ H) as [_ [_ Hlines]].
  destruct (Hlines line Hl Hs) as [i [b [_ []]]].
Qed.

(** X3.  When [parse_ballots] succeeds, the ballots are, in the order of
    the lines, those of the lines that are not blank: one ballot each,
    whose count is the integer read left of the first colon and whose
    ranking is the list of tokens right of it; each has a positive count
    and a ranking without repetition made of known candidates, and there
    is at least one ballot. *)
Theorem parse_ballots_line_by_line (raw : str) (candidates : list str)
    (ballots : list ballot)
    (Hok : parse_ballots raw candidates = Ok ballots) :
  Forall2
    (fun line (b : ballot) =>
       py_int (strip (fst (split1 colon line))) = Some (fst b)
       /\ snd b = ranking_of (snd (split1 colon line)))
    (filter nonblank (splitlines raw)) ballots
  /\ valid_ballots candidates ballots.
Proof.
  split; [|exact (parse_ballots_valid raw candidates ballots Hok)].
  apply parse_ballots_Ok in Hok as [Hok _].
  destruct (parse_lines_order _ _ _ _ _ Hok) as [new [-> Hall]].
  cbn [app]. eapply Forall2_impl; [|exact Hall].
  intros line b [i Hp]. apply parse_line_Ok in Hp. tauto.
Qed.

Lemma parse_ballots_line_by_line_witness :
  exists ballots,
    parse_ballots
      (py "2: A > B" ++ [ascii_of_nat 10; ascii_of_nat 10] ++ py "1: B, A")
      [cA; cB] = Ok ballots
    /\ ballots = [(2, [cA; cB]); (1, [cB; cA])]
    /\ valid_ballots [cA; cB] ballots.
Proof.
  eexists. split; [reflexivity|]. split; [reflexivity|].
  eapply (parse_ballots_line_by_line
            (py "2: A > B" ++ [ascii_of_nat 10; ascii_of_nat 10]
             ++ py "1: B, A")).
  reflexivity.
Defined.

Lemma parse_ballots_not_no_valid_ballot (raw : str)
    (candidates : list str) :
  parse_ballots raw candidates <> Raise (ValueError NoValidBallot).
Proof.
  unfold parse_ballots.
  destruct (truthy (strip raw)) eqn:Et; cbn [negb]; [|discriminate].
  apply truthy_true in Et.
  pose proof (parse_lines_not_empty raw candidates Et) as Hne.
  destruct (parse_lines 1 (splitlines raw) candidates []) as [bs|e] eqn:Ep.
  - destruct bs as [|b bs]; [congruence | discriminate].
  - intros H. injection H as ->.
    apply parse_lines_Raise in Ep as [k [l [_ [_ [Hp _]]]]].
    apply parse_line_Raise in Hp. discriminate.
Qed.

(** X4.  [parse_ballots] never raises "at least one valid ballot line":
    text that is not blank has a line that is parsed, which gives a ballot
    or an error of its own, so the last check of the function cannot
    fail. *)
Theorem parse_ballots_never_no_valid_ballot (raw : str)
    (candidates : list str) :
  match parse_ballots raw candidates with
  | Raise (ValueError NoValidBallot) => False
  | _ => True
  end.
Proof.
  pose proof (parse_ballots_not_no_valid_ballot raw candidates) as H.
  destruct (parse_ballots raw candidates) as [bs | [m |]];
    try exact I.
  destruct m; try exact I. now apply H.
Qed.

(** X5.  When [parse_ballots] fails, either the whole text is white space
    ("at least one ballot line"), or the error is that of the first line
    that is not blank and does not parse, and its message carries the
    1-based number of that line among all lines, blank ones counted. *)
Theorem parse_ballots_error_line (raw : str) (candidates : list str)
    (e : exn) (Hfail : parse_ballots raw candidates = Raise e) :
  (e = ValueError NoBallotLine
   /\ Forall (fun c => is_space c = true) raw)
  \/ exists k line,
      nth_error (splitlines raw) k = Some line
      /\ strip line <> []
      /\ parse_line (S k) line candidates = Raise e
      /\ error_line e = Some (S k)
      /\ forall j l, (j < k)%nat -> nth_error (splitlines raw) j = Some l ->
           strip l = [] \/ exists b, parse_line (S j) l candidates = Ok b.
Proof.
  unfold parse_ballots in Hfail.
  destruct (truthy (strip raw)) eqn:Et; cbn [negb] in Hfail.
  - right. apply truthy_true in Et.
    pose proof (parse_lines_not_empty raw candidates Et) as Hne.
    destruct (parse_lines 1 (splitlines raw) candidates []) as [bs|e0] eqn:Ep.
    + destruct bs as [|b bs]; [congruence | discriminate].
    + injection Hfail as <-.
      apply parse_lines_Raise in Ep as [k [l [Hnth [Hs [Hp Hbefore]]]]].
      exists k, l. split; [exact Hnth|]. split; [exact Hs|].
      split; [exact Hp|]. split; [exact (parse_line_Raise _ _ _ _ Hp)|].
      exact Hbefore.
  - left. injection Hfail as <-. split; [reflexivity|].
    apply strip_nil_iff. destruct (strip raw); [reflexivity | discriminate].
Qed.

Lemma parse_ballots_error_line_witness :
  parse_ballots
    (py "2: A" ++ [ascii_of_nat 10; ascii_of_nat 10] ++ py "abc: A")
    [cA] = Raise (ValueError (InvalidCount 3))
  /\ error_line (ValueError (InvalidCount 3)) = Some 3%nat.
Proof.
  assert (Hfail : parse_ballots
                    (py "2: A" ++ [ascii_of_nat 10; ascii_of_nat 10]
                     ++ py "abc: A")
                    [cA] = Raise (ValueError (InvalidCount 3)))
    by reflexivity.
  split; [exact Hfail|].
  destruct (parse_ballots_error_line _ _ _ Hfail)
    as [[H _] | [k [l [_ [_ [_ [He _]]]]]]]; [discriminate H|].
  reflexivity.
Defined.

(* ================================================================== *)
(** * More on instant runoff                                           *)
(* ================================================================== *)

Lemma counter_get_missing (k : str) (d : counter) :
  ~ In k (keys d) -> counter_get k d = 0.
Proof.
  induction d as [|[k' v] d IH]; simpl; [reflexivity|].
  intros H. destruct (str_eqb k k') eqn:E.
  - apply str_eqb_eq in E. subst. exfalso. apply H. now left.
  - apply IH. tauto.
Qed.

Lemma fold_count_get (remaining : list str) (c : str)
    (ballots : list ballot) :
  forall t,
    counter_get c (fold_left (count_ballot remaining) ballots t)
    = counter_get c t + sum (map (vote_for remaining c) ballots).
Proof.
  induction ballots as [|[count ranking] bs IH]; intros t.
  - simpl. rewrite sum_nil. lia.
  - cbn [fold_left map]. rewrite IH, sum_cons.
    unfold count_ballot, vote_for. cbn [fst snd].
    destruct (first_choice remaining ranking) as [c'|]; [|lia].
    rewrite counter_get_add.
    destruct (str_eqb c c') eqn:E.
    + apply str_eqb_eq in E. subst c'. rewrite str_eqb_refl. lia.
    + replace (str_eqb c' c) with false; [lia|].
      symmetry. apply str_eqb_neq. apply str_eqb_neq in E. congruence.
Qed.

Lemma fold_count_keys (remaining : list str) (c : str)
    (ballots : list ballot) :
  forall t,
    In c (keys (fold_left (count_ballot remaining) ballots t))
    <-> In c (keys t)
        \/ exists b, In b ballots
                     /\ first_choice remaining (snd b) = Some c.
Proof.
  induction ballots as [|[count ranking] bs IH]; intros t.
  - simpl. split; [tauto|]. intros [H | [b [[] _]]]. exact H.
  - cbn [fold_left]. rewrite IH. unfold count_ballot.
    destruct (first_choice remaining ranking) as [c'|] eqn:E.
    + rewrite counter_add_keys. split.
      * intros [[-> | H] | [b [Hb Hf]]].
        -- right. exists (count, ranking). split; [now left | exact E].
        -- now left.
        -- right. exists b. split; [now right | exact Hf].
      * intros [H | [b [[<- | Hb] Hf]]].
        -- left. now right.
        -- left. left. cbn [snd] in Hf. congruence.
        -- right. now exists b.
    + split.
      * intros [H | [b [Hb Hf]]]; [now left|].
        right. exists b. split; [now right | exact Hf].
      * intros [H | [b [[<- | Hb] Hf]]]; [now left | |].
        -- cbn [snd] in Hf. congruence.
        -- right. now exists b.
Qed.

(** X6.  The tally of a round gives each candidate the total weight of the
    ballots whose first choice still in the race it is (the earliest name
    of the ranking that is in [remaining]); a candidate has an entry
    exactly when there is such a ballot; ballots without a choice in the
    race add nothing. *)
Theorem irv_tally_counts (remaining : list str) (ballots : list ballot)
    (c : str) :
  counter_get c (irv_tally remaining ballots)
  = sum (map (vote_for remaining c) ballots)
  /\ (In c (keys (irv_tally remaining ballots))
      <-> exists b, In b ballots /\ first_choice remaining (snd b) = Some c)
  /\ (forall ranking,
         first_choice remaining ranking = Some c <->
         exists before after,
           ranking = before ++ c :: after /\ In c remaining
           /\ forall x, In x before -> ~ In x remaining).
Proof.
  split; [|split].
  - unfold irv_tally. rewrite fold_count_get. reflexivity.
  - unfold irv_tally. rewrite fold_count_keys. simpl. tauto.
  - intros ranking. unfold first_choice. split.
    + intros H. apply find_first in H as [before [after [Heq [Hc Hb]]]].
      exists before, after. split; [exact Heq|].
      split; [now apply mem_In|].
      intros x Hx. apply mem_false. now apply Hb.
    + intros [before [after [-> [Hc Hb]]]].
      induction before as [|x before IH]; simpl.
      * apply mem_In in Hc. now rewrite Hc.
      * replace (mem x remaining) with false.
        -- apply IH. intros y Hy. apply Hb. now right.
        -- symmetry. apply mem_false. apply Hb. now left.
Qed.

Lemma majority_key (total : Z) (items : counter) (c : str) :
  majority total items = Ok (Some c) -> In c (keys items).
Proof.
  induction items as [|[k v] items IH]; simpl; [discriminate|].
  destruct (exceeds_half v total) as [[|]|e]; [| |discriminate].
  - intros H. injection H as <-. now left.
  - intros H. right. now apply IH.
Qed.

(** What one pass through the loop body does, case by case. *)
Lemma irv_iteration_cases (ballots : list ballot) (remaining : list str)
    (rounds : list irv_round) :
  let tally := irv_tally remaining ballots in
  let total := sum (values tally) in
  match irv_iteration ballots remaining rounds with
  | Ok (Return w rounds') =>
      rounds' = rounds ++ [round_of ballots remaining]
      /\ ((total = 0 /\ w = final_winner remaining)
          \/ (total <> 0 /\ majority total tally = Ok (Some w)))
  | Ok (Continue remaining' rounds') =>
      rounds' = rounds ++ [round_of ballots remaining]
      /\ total <> 0 /\ majority total tally = Ok None
      /\ remaining' = survivors tally remaining
  | Raise e => total <> 0 /\ majority total tally = Raise e
  end.
Proof.
  cbv zeta. unfold irv_iteration, round_of, survivors.
  destruct (sum (values (irv_tally remaining ballots)) =? 0) eqn:E0.
  - apply Z.eqb_eq in E0. split; [reflexivity | now left].
  - apply Z.eqb_neq in E0.
    destruct (majority _ (irv_tally remaining ballots)) as [[c|]|e] eqn:Em.
    + split; [reflexivity | now right].
    + unfold eliminated. rewrite remove_each_filter.
      repeat split; assumption.
    + now split.
Qed.

Lemma subseq_refl {A} (l : list A) : subseq l l.
Proof. induction l; now constructor. Qed.

Lemma subseq_filter {A} (p : A -> bool) (l : list A) : subseq (filter p l) l.
Proof.
  induction l as [|x l IH]; simpl; [constructor|].
  destruct (p x); now constructor.
Qed.

Lemma subseq_trans {A} (l1 l2 l3 : list A) :
  subseq l1 l2 -> subseq l2 l3 -> subseq l1 l3.
Proof.
  intros H12 H23. revert l1 H12.
  induction H23 as [|x l2 l3 H IH|x l2 l3 H IH]; intros l1 H12.
  - exact H12.
  - constructor. now apply IH.
  - inversion H12; subst.
    + constructor. now apply IH.
    + apply subseq_keep. now apply IH.
Qed.

Lemma subseq_In {A} (l1 l2 : list A) (x : A) :
  subseq l1 l2 -> In x l1 -> In x l2.
Proof.
  induction 1 as [|y l1 l2 H IH|y l1 l2 H IH]; simpl; [tauto| |].
  - intros Hx. right. now apply IH.
  - intros [-> | Hx]; [now left | right; now apply IH].
Qed.

(** X7.  An elimination removes at once every remaining candidate whose
    tally equals the least recorded tally, and nobody else; the others stay
    in their order.  With positive ballot weights the least recorded tally
    is positive, so a candidate without any counted ballot stays. *)
Theorem irv_elimination_step (ballots : list ballot)
    (remaining remaining' : list str) (rounds rounds' : list irv_round)
    (Hpos : Forall (fun b => 0 < fst b) ballots)
    (Hstep : irv_iteration ballots remaining rounds
             = Ok (Continue remaining' rounds')) :
  let tally := irv_tally remaining ballots in
  subseq remaining' remaining
  /\ (forall c, In c remaining' <->
        In c remaining /\ counter_get c tally <> lowest_votes tally)
  /\ (exists k, In k remaining /\ ~ In k remaining'
                /\ counter_get k tally = lowest_votes tally)
  /\ (forall k v, In (k, v) tally -> lowest_votes tally <= v)
  /\ 0 < lowest_votes tally
  /\ (forall c, In c remaining -> ~ In c (keys tally) -> In c remaining').
Proof.
  cbv zeta.
  pose proof (irv_iteration_cases ballots remaining rounds) as H.
  rewrite Hstep in H. cbv zeta in H. destruct H as [_ [Htot [_ ->]]].
  set (tally := irv_tally remaining ballots) in *.
  assert (Hmem : forall c, In c (survivors tally remaining) <->
             In c remaining /\ counter_get c tally <> lowest_votes tally).
  { intros c. unfold survivors. rewrite filter_In, negb_true_iff, Z.eqb_neq.
    reflexivity. }
  assert (Hne : tally <> []).
  { intros Hnil. apply Htot. now rewrite Hnil. }
  destruct (lowest_votes_attained tally Hne) as [k Hk].
  destruct (irv_tally_ok remaining ballots) as [Hnd Hsub]. fold tally in Hnd, Hsub.
  assert (Hlow : 0 < lowest_votes tally).
  { pose proof (irv_tally_pos remaining ballots Hpos) as Hvals.
    fold tally in Hvals. rewrite Forall_forall in Hvals. apply Hvals.
    change (lowest_votes tally) with (snd (k, lowest_votes tally)).
    unfold values. now apply in_map. }
  split; [apply subseq_filter|]. split; [exact Hmem|]. split; [|split; [|split]].
  - exists k. assert (Hget : counter_get k tally = lowest_votes tally)
      by now apply counter_get_In.
    split; [|split; [|exact Hget]].
    + apply Hsub. change k with (fst (k, lowest_votes tally)).
      now apply in_map.
    + intros Hin. apply Hmem in Hin. tauto.
  - intros k' v Hin. now apply lowest_votes_le with (k := k').
  - exact Hlow.
  - intros c Hc Hnot. apply Hmem. split; [exact Hc|].
    rewrite counter_get_missing by assumption. lia.
Qed.

Lemma irv_elimination_step_witness :
  irv_iteration demo_ballots demo_candidates []
  = Ok (Continue [Alice; Bob; Chen] [round_of demo_ballots demo_candidates])
  /\ In Diego demo_candidates /\ ~ In Diego [Alice; Bob; Chen]
  /\ lowest_votes (irv_tally demo_candidates demo_ballots) = 4.
Proof.
  assert (Hpos : Forall (fun b : ballot => 0 < fst b) demo_ballots)
    by (repeat constructor).
  assert (Hstep : irv_iteration demo_ballots demo_candidates []
                  = Ok (Continue [Alice; Bob; Chen]
                          [round_of demo_ballots demo_candidates]))
    by (vm_compute; reflexivity).
  split; [exact Hstep|].
  destruct (irv_elimination_step _ _ _ _ _ Hpos Hstep)
    as [_ [Hmem _]].
  split; [right; right; right; now left|]. split; [|reflexivity].
  intros Hin. apply Hmem in Hin as [_ Hne]. apply Hne. reflexivity.
Defined.

Lemma survivors_shorter (ballots : list ballot) (remaining : list str) :
  sum (values (irv_tally remaining ballots)) <> 0 ->
  (length (survivors (irv_tally remaining ballots) remaining)
   < length remaining)%nat.
Proof.
  intros Htot. destruct (eliminated_shrinks remaining ballots) as [r' [Hr Hlt]].
  - intros Hnil. apply Htot. now rewrite Hnil.
  - unfold eliminated in Hr. rewrite remove_each_filter in Hr.
    injection Hr as <-. exact Hlt.
Qed.

(** Every run of the loop that returns is a run in the sense of
    [run_from]. *)
Lemma irv_loop_run (ballots : list ballot) (fuel : nat) :
  forall (remaining : list str) (rounds : list irv_round) (w : str)
         (trail : list irv_round),
    irv_loop fuel ballots remaining rounds = Some (Ok (w, trail)) ->
    exists added, trail = rounds ++ added
                  /\ run_from ballots remaining added w.
Proof.
  induction fuel as [|fuel IH]; intros remaining rounds w trail;
    rewrite irv_loop_eq;
    destruct (Nat.leb_spec (length remaining) 1) as [Hle | Hgt];
    try discriminate.
  - intros H. injection H as <- <-. exists []. rewrite app_nil_r.
    split; [reflexivity | now split].
  - intros H. injection H as <- <-. exists []. rewrite app_nil_r.
    split; [reflexivity | now split].
  - pose proof (irv_iteration_cases ballots remaining rounds) as Hc.
    cbv zeta in Hc.
    destruct (irv_iteration ballots remaining rounds)
      as [[w0 rs | r' rs] | e]; [| |discriminate].
    + intros H. injection H as <- <-. destruct Hc as [-> Hc].
      exists [round_of ballots remaining]. split; [reflexivity|].
      cbn [run_from]. split; [lia|]. split; [reflexivity|].
      destruct Hc as [[H0 Hw] | [H0 Hm]]; [left | right; left]; auto.
    + destruct Hc as [-> [H0 [Hm ->]]]. intros H.
      destruct (IH _ _ _ _ H) as [added [-> Hrun]].
      exists (round_of ballots remaining :: added).
      rewrite <- app_assoc. split; [reflexivity|].
      cbn [run_from]. split; [lia|]. split; [reflexivity|].
      right. right. auto.
Qed.

Lemma irv_winner_run (candidates : list str) (ballots : list ballot)
    (w : str) (trail : list irv_round) :
  irv_winner candidates ballots = Some (Ok (w, trail)) ->
  run_from ballots candidates trail w.
Proof.
  unfold irv_winner. intros H.
  apply irv_loop_run in H as [added [-> Hrun]]. exact Hrun.
Qed.

Lemma run_from_structure (ballots : list ballot) (candidates : list str)
    (w : str) (added : list irv_round) :
  forall remaining,
    subseq remaining candidates ->
    run_from ballots remaining added w ->
    Forall (fun r => r = round_of ballots (round_remaining r)
                     /\ (2 <= length (round_remaining r))%nat
                     /\ subseq (round_remaining r) candidates) added
    /\ match added with
       | r :: _ => round_remaining r = remaining
       | [] => True
       end
    /\ forall i r r',
        nth_error added i = Some r -> nth_error added (S i) = Some r' ->
        round_total r <> 0
        /\ majority (round_total r) (round_tally r) = Ok None
        /\ round_remaining r'
           = survivors (round_tally r) (round_remaining r)
        /\ (length (round_remaining r') < length (round_remaining r))%nat.
Proof.
  induction added as [|r rest IH]; intros remaining Hsub Hrun.
  - split; [constructor|]. split; [exact I|].
    intros i r r' H. destruct i; discriminate.
  - cbn [run_from] in Hrun. destruct Hrun as [Htwo [-> Hcases]].
    cbv zeta in Hcases.
    assert (Hhead : round_of ballots remaining
                    = round_of ballots
                        (round_remaining (round_of ballots remaining))
                    /\ (2 <= length (round_remaining
                                       (round_of ballots remaining)))%nat
                    /\ subseq (round_remaining (round_of ballots remaining))
                         candidates)
      by (cbn; auto).
    destruct Hcases as [[_ [-> _]] | [[_ [_ ->]] | [H0 [Hm Hrun]]]].
    + split; [now repeat constructor|]. split; [reflexivity|].
      intros i r r' _ H. destruct i; discriminate.
    + split; [now repeat constructor|]. split; [reflexivity|].
      intros i r r' _ H. destruct i; discriminate.
    + assert (Hsub' : subseq (survivors (irv_tally remaining ballots)
                                remaining) candidates).
      { eapply subseq_trans; [apply subseq_filter | exact Hsub]. }
      destruct (IH _ Hsub' Hrun) as [Hall [Hfirst Hnext]].
      split; [now constructor|]. split; [reflexivity|].
      intros i r r' Hi Hi'. destruct i as [|i].
      * cbn in Hi. injection Hi as <-. cbn [nth_error] in Hi'.
        destruct rest as [|r1 rest]; [discriminate|].
        cbn in Hi'. injection Hi' as <-. cbn. rewrite Hfirst.
        repeat split; auto. now apply survivors_shorter.
      * cbn [nth_error] in Hi, Hi'. exact (Hnext i r r' Hi Hi').
Qed.

(** X8.  The trail of a run that returns: every round records the
    candidates still in the race at its start, at least two and in the
    order of the candidate list, with their tally and its sum; the first
    round is that of all candidates; and from a round to the next the
    race loses exactly the candidates at the least recorded tally, after a
    round with a non-zero total and no majority. *)
Theorem irv_trail_structure (candidates : list str)
    (ballots : list ballot) (w : str) (trail : list irv_round)
    (Hrun : irv_winner candidates ballots = Some (Ok (w, trail))) :
  Forall (fun r =>
            round_tally r = irv_tally (round_remaining r) ballots
            /\ round_total r = sum (values (round_tally r))
            /\ (2 <= length (round_remaining r))%nat
            /\ subseq (round_remaining r) candidates) trail
  /\ match trail with
     | r :: _ => round_remaining r = candidates
     | [] => (length candidates <= 1)%nat
     end
  /\ forall i r r',
      nth_error trail i = Some r -> nth_error trail (S i) = Some r' ->
      round_total r <> 0
      /\ majority (round_total r) (round_tally r) = Ok None
      /\ round_remaining r' = survivors (round_tally r) (round_remaining r)
      /\ (length (round_remaining r') < length (round_remaining r))%nat.
Proof.
  apply irv_winner_run in Hrun.
  destruct (run_from_structure ballots candidates w trail candidates
              (subseq_refl _) Hrun) as [Hall [Hfirst Hnext]].
  split; [|split; [|exact Hnext]].
  - eapply Forall_impl; [|exact Hall].
    intros r [Hr [Htwo Hsub]]. rewrite Hr. cbn. auto.
  - destruct trail as [|r rest]; [|exact Hfirst].
    cbn [run_from] in Hrun. tauto.
Qed.

Lemma irv_trail_structure_witness :
  exists trail,
    irv_winner demo_candidates demo_ballots = Some (Ok (Chen, trail))
    /\ map round_remaining trail
       = [ [Alice; Bob; Chen; Diego]; [Alice; Bob; Chen]; [Alice; Chen] ]
    /\ Forall (fun r => round_total r = sum (values (round_tally r))) trail.
Proof.
  destruct (irv_winner demo_candidates demo_ballots)
    as [[[w trail] | e] |] eqn:Hrun; try (vm_compute in Hrun; discriminate).
  exists trail.
  destruct (irv_trail_structure demo_candidates demo_ballots w trail Hrun)
    as [Hall _].
  vm_compute in Hrun. injection Hrun as <- <-.
  split; [reflexivity|]. split; [reflexivity|].
  eapply Forall_impl; [|exact Hall]. simpl. tauto.
Defined.

Lemma final_winner_In (remaining candidates : list str) :
  subseq remaining candidates ->
  In (final_winner remaining) candidates
  \/ (remaining = [] /\ final_winner remaining = no_winner).
Proof.
  intros Hsub. destruct remaining as [|c r]; [now right|].
  left. apply (subseq_In _ _ c Hsub). now left.
Qed.

Lemma run_from_outcome (ballots : list ballot) (candidates : list str)
    (w : str) (added : list irv_round) :
  forall remaining,
    subseq remaining candidates ->
    run_from ballots remaining added w ->
    (In w candidates \/ w = no_winner)
    /\ ((added = [] /\ (length remaining <= 1)%nat
         /\ w = final_winner remaining)
        \/ exists front r,
            added = front ++ [r]
            /\ ((round_total r = 0
                 /\ w = final_winner (round_remaining r))
                \/ (round_total r <> 0
                    /\ majority (round_total r) (round_tally r)
                       = Ok (Some w))
                \/ (round_total r <> 0
                    /\ majority (round_total r) (round_tally r) = Ok None
                    /\ (length (survivors (round_tally r)
                                  (round_remaining r)) <= 1)%nat
                    /\ w = final_winner
                             (survivors (round_tally r)
                                (round_remaining r))))).
Proof.
  induction added as [|r rest IH]; intros remaining Hsub Hrun.
  - cbn [run_from] in Hrun. destruct Hrun as [Hlen ->]. split.
    + destruct (final_winner_In _ _ Hsub) as [H | [_ H]]; auto.
    + left. auto.
  - cbn [run_from] in Hrun. destruct Hrun as [Htwo [-> Hcases]].
    cbv zeta in Hcases.
    destruct Hcases as [[H0 [-> ->]] | [[H0 [Hm ->]] | [H0 [Hm Hrun]]]].
    + split.
      * destruct (final_winner_In _ _ Hsub) as [H | [_ H]]; auto.
      * right. exists [], (round_of ballots remaining).
        split; [reflexivity|]. left. cbn. auto.
    + split.
      * left. apply (subseq_In _ _ w Hsub).
        destruct (irv_tally_ok remaining ballots) as [_ Hkeys].
        apply Hkeys. exact (majority_key _ _ _ Hm).
      * right. exists [], (round_of ballots remaining).
        split; [reflexivity|]. right. left. cbn. auto.
    + assert (Hsub' : subseq (survivors (irv_tally remaining ballots)
                                remaining) candidates).
      { eapply subseq_trans; [apply subseq_filter | exact Hsub]. }
      destruct (IH _ Hsub' Hrun) as [Hw Hlast]. split; [exact Hw|].
      right. destruct Hlast as [[-> [Hlen Hfin]] | [front [r [-> Hr]]]].
      * exists [], (round_of ballots remaining). split; [reflexivity|].
        right. right. cbn. auto.
      * exists (round_of ballots remaining :: front), r.
        split; [reflexivity | exact Hr].
Qed.

(** X9.  What a run returns is a candidate or the "No winner" value.  It is
    decided in one of four ways: without any round when there is at most
    one candidate (that candidate, or "No winner" for none); by a last
    round with total 0 (the first candidate of that round); by a last
    round with a majority winner; or by a last round without majority
    whose elimination leaves at most one candidate (that candidate, or
    "No winner" when all were removed). *)
Theorem irv_outcome (candidates : list str) (ballots : list ballot)
    (w : str) (trail : list irv_round)
    (Hrun : irv_winner candidates ballots = Some (Ok (w, trail))) :
  (In w candidates \/ w = no_winner)
  /\ ((trail = [] /\ (length candidates <= 1)%nat
       /\ w = final_winner candidates)
      \/ exists front r,
          trail = front ++ [r]
          /\ ((round_total r = 0 /\ w = final_winner (round_remaining r))
              \/ (round_total r <> 0
                  /\ majority (round_total r) (round_tally r) = Ok (Some w))
              \/ (round_total r <> 0
                  /\ majority (round_total r) (round_tally r) = Ok None
                  /\ (length (survivors (round_tally r)
                                (round_remaining r)) <= 1)%nat
                  /\ w = final_winner
                           (survivors (round_tally r)
                              (round_remaining r))))).
Proof.
  apply irv_winner_run in Hrun.
  exact (run_from_outcome ballots candidates w trail candidates
           (subseq_refl _) Hrun).
Qed.

Lemma irv_outcome_witness :
  exists trail,
    irv_winner demo_candidates demo_ballots = Some (Ok (Chen, trail))
    /\ (In Chen demo_candidates \/ Chen = no_winner).
Proof.
  destruct (irv_winner demo_candidates demo_ballots)
    as [[[w trail] | e] |] eqn:Hrun; try (vm_compute in Hrun; discriminate).
  exists trail.
  destruct (irv_outcome demo_candidates demo_ballots w trail Hrun)
    as [Hw _].
  vm_compute in Hrun. injection Hrun as <- <-.
  split; [reflexivity | exact Hw].
Defined.

(** ** When the division [total / 2] is harmless, and when it is not *)

Lemma round_total_bounds (remaining : list str) (ballots : list ballot) :
  Forall (fun b => 0 <= fst b) ballots ->
  0 <= sum (values (irv_tally remaining ballots)) <= sum (weights ballots).
Proof.
  intros Hw. rewrite irv_tally_sum. split.
  - apply sum_nonneg. apply Forall_forall. intros v Hv.
    apply in_map_iff in Hv as [b [<- Hb]].
    rewrite Forall_forall in Hw. specialize (Hw b Hb).
    unfold counted. destruct (first_choice remaining (snd b)); lia.
  - apply sum_map_le. eapply Forall_impl; [|exact Hw].
    intros b Hb. now apply counted_le.
Qed.

Lemma irv_loop_returns (ballots : list ballot)
    (Hw : Forall (fun b => 0 <= fst b) ballots)
    (Hbound : sum (weights ballots) < 2 ^ 53) (fuel : nat) :
  forall (remaining : list str) (rounds : list irv_round),
    (length remaining <= S fuel)%nat ->
    exists w trail,
      irv_loop fuel ballots remaining rounds = Some (Ok (w, trail)).
Proof.
  induction fuel as [|fuel IH]; intros remaining rounds Hlen;
    rewrite irv_loop_eq;
    destruct (Nat.leb_spec (length remaining) 1) as [Hle | Hgt];
    try (eexists; eexists; reflexivity); try lia.
  pose proof (irv_iteration_spec ballots remaining rounds) as Hs.
  pose proof (irv_iteration_cases ballots remaining rounds) as Hc.
  cbv zeta in Hc.
  destruct (irv_iteration ballots remaining rounds) as [[w rs | r' rs] | e].
  - eexists; eexists; reflexivity.
  - destruct Hs as [_ Hlt]. apply IH. lia.
  - exfalso. destruct Hc as [_ Hm].
    pose proof (round_total_bounds remaining ballots Hw) as Hb.
    rewrite majority_exact in Hm by lia. discriminate.
Qed.

(** X10.  With non-negative weights whose sum is below [2 ^ 53], the IRV
    engine raises nothing: it returns a winner and a trail, and the total
    of every round of the trail lies between 0 and the sum of the
    weights. *)
Theorem irv_returns_below_2_53 (candidates : list str)
    (ballots : list ballot)
    (Hw : Forall (fun b => 0 <= fst b) ballots)
    (Hbound : sum (weights ballots) < 2 ^ 53) :
  exists w trail,
    irv_winner candidates ballots = Some (Ok (w, trail))
    /\ Forall (fun r => 0 <= round_total r <= sum (weights ballots)) trail.
Proof.
  destruct (irv_loop_returns ballots Hw Hbound (length candidates)
              candidates []) as [w [trail Hrun]]; [lia|].
  exists w, trail. split; [exact Hrun|].
  apply irv_winner_run in Hrun.
  destruct (run_from_structure ballots candidates w trail candidates
              (subseq_refl _) Hrun) as [Hall _].
  eapply Forall_impl; [|exact Hall].
  intros r [Hr _]. rewrite Hr. cbn.
  now apply round_total_bounds.
Qed.

Lemma irv_returns_below_2_53_witness :
  Forall (fun b : ballot => 0 <= fst b) demo_ballots
  /\ sum (weights demo_ballots) = 28
  /\ exists w trail,
      irv_winner demo_candidates demo_ballots = Some (Ok (w, trail)).
Proof.
  assert (Hw : Forall (fun b : ballot => 0 <= fst b) demo_ballots)
    by (repeat constructor; simpl; lia).
  split; [exact Hw|]. split; [reflexivity|].
  destruct (irv_returns_below_2_53 demo_candidates demo_ballots Hw)
    as [w [trail [Hrun _]]]; [reflexivity|].
  now exists w, trail.
Defined.

Lemma round53_large (t : Z) : 2 ^ 1025 <= t -> 2 ^ 1025 <= round53 t.
Proof.
  intros Ht.
  assert (Hpos : 0 < t).
  { apply Z.lt_le_trans with (2 ^ 1025); [|exact Ht].
    apply Z.pow_pos_nonneg; lia. }
  assert (Hlog : 1025 <= Z.log2 t) by (apply Z.log2_le_pow2; lia).
  destruct (Z.log2_spec t Hpos) as [Hlo _].
  unfold round53. rewrite Z.sgn_pos, Z.abs_eq, Z.mul_1_l by lia.
  unfold round53_nonneg, bit_length.
  replace (t =? 0) with false by (symmetry; apply Z.eqb_neq; lia).
  rewrite Z.abs_eq by lia.
  replace (Z.log2 t + 1 <=? 53) with false
    by (symmetry; apply Z.leb_gt; lia).
  set (s := Z.log2 t + 1 - 53).
  assert (Hs : 0 <= s) by (unfold s; lia).
  assert (Hsplit : 2 ^ Z.log2 t = 2 ^ 52 * 2 ^ s).
  { rewrite <- Z.pow_add_r by lia. f_equal. unfold s. lia. }
  assert (Hp : 0 < 2 ^ s) by (apply Z.pow_pos_nonneg; lia).
  assert (Hq : 2 ^ 52 <= Z.shiftr t s).
  { rewrite Z.shiftr_div_pow2 by lia.
    apply Z.div_le_lower_bound; [exact Hp|]. lia. }
  set (q := Z.shiftr t s) in *.
  set (q' := if (Z.shiftl 1 (s - 1) <? Z.land t (Z.ones s))
                || (Z.land t (Z.ones s) =? Z.shiftl 1 (s - 1)) && Z.odd q
             then q + 1 else q).
  assert (Hq' : q <= q') by (unfold q'; destruct (_ || _); lia).
  rewrite Z.shiftl_mul_pow2 by lia.
  apply Z.le_trans with (2 ^ Z.log2 t).
  - apply Z.pow_le_mono_r; lia.
  - rewrite Hsplit. apply Z.mul_le_mono_nonneg_r; lia.
Qed.

(** X11.  The engine can fail on valid input: in a round of at least two
    candidates whose total is [2 ^ 1025] or more, the division [total / 2]
    of the majority check overflows, and [irv_winner] raises
    [OverflowError] instead of returning. *)
Theorem irv_overflow (ballots : list ballot) (remaining : list str)
    (Htwo : (2 <= length remaining)%nat)
    (Hhuge : 2 ^ 1025 <= sum (values (irv_tally remaining ballots))) :
  (forall rounds,
      irv_iteration ballots remaining rounds = Raise OverflowError)
  /\ (forall fuel rounds,
         irv_loop (S fuel) ballots remaining rounds
         = Some (Raise OverflowError))
  /\ irv_winner remaining ballots = Some (Raise OverflowError).
Proof.
  assert (Hp : 0 < 2 ^ 1025) by (apply Z.pow_pos_nonneg; lia).
  assert (Hiter : forall rounds,
             irv_iteration ballots remaining rounds = Raise OverflowError).
  { intros rounds. unfold irv_iteration.
    set (tally := irv_tally remaining ballots) in *.
    set (total := sum (values tally)) in *.
    replace (total =? 0) with false by (symmetry; apply Z.eqb_neq; lia).
    destruct tally as [|[k v] t] eqn:Et.
    - exfalso. unfold total in Hhuge. cbn in Hhuge. lia.
    - cbn [majority]. unfold exceeds_half, twice_half.
      pose proof (round53_large total Hhuge) as Hr.
      replace (2 ^ 1025 <=? Z.abs (round53 total)) with true
        by (symmetry; apply Z.leb_le; lia).
      reflexivity. }
  assert (Hloop : forall fuel rounds,
             irv_loop (S fuel) ballots remaining rounds
             = Some (Raise OverflowError)).
  { intros fuel rounds. rewrite irv_loop_eq.
    destruct (Nat.leb_spec (length remaining) 1); [lia|].
    now rewrite Hiter. }
  split; [exact Hiter|]. split; [exact Hloop|].
  unfold irv_winner.
  destruct (length remaining) as [|n] eqn:E; [lia|]. apply Hloop.
Qed.

Lemma irv_overflow_witness :
  valid_ballots [cA; cB] [(2 ^ 1025, [cA]); (1, [cB])]
  /\ irv_winner [cA; cB] [(2 ^ 1025, [cA]); (1, [cB])]
     = Some (Raise OverflowError).
Proof.
  split; [apply valid_ballotsb_sound; reflexivity|].
  apply (irv_overflow [(2 ^ 1025, [cA]); (1, [cB])] [cA; cB]).
  - simpl. lia.
  - vm_compute. discriminate.
Defined.

(* ================================================================== *)
(** * More on Borda                                                    *)
(* ================================================================== *)

Lemma counter_get_zero (c : str) (d : counter) :
  Forall (fun v => v = 0) (values d) -> counter_get c d = 0.
Proof.
  induction d as [|[k v] d IH]; simpl; intros H; [reflexivity|].
  inversion H; subst. destruct (str_eqb c k); auto.
Qed.

Lemma position_cons_neq (c x : str) (rest : list str) :
  x <> c ->
  position c (x :: rest) = option_map S (position c rest).
Proof.
  intros H. cbn [position].
  replace (str_eqb x c) with false by (symmetry; now apply str_eqb_neq).
  destruct (position c rest); reflexivity.
Qed.

Lemma position_None (c : str) (ranking : list str) :
  ~ In c ranking -> position c ranking = None.
Proof.
  induction ranking as [|x rest IH]; [reflexivity|]. intros H.
  rewrite position_cons_neq by (intros ->; apply H; now left).
  rewrite IH; [reflexivity|]. intros Hin. apply H. now right.
Qed.

Lemma borda_ballot_get (max_points count : Z) (c : str)
    (ranking : list str) :
  NoDup ranking ->
  forall (idx : Z) (scores : counter),
    counter_get c (borda_ballot max_points count idx ranking scores)
    = counter_get c scores
      + match position c ranking with
        | Some i => count * (max_points - (idx + Z.of_nat i))
        | None => 0
        end.
Proof.
  induction 1 as [|x rest Hnotin Hnd IH]; intros idx scores.
  - simpl. lia.
  - cbn [borda_ballot]. rewrite IH, counter_get_add.
    destruct (str_eq_dec x c) as [-> | Hne].
    + rewrite str_eqb_refl. cbn [position]. rewrite str_eqb_refl.
      rewrite (position_None c rest Hnotin). cbn. lia.
    + rewrite position_cons_neq by assumption.
      replace (str_eqb c x) with false
        by (symmetry; apply str_eqb_neq; congruence).
      destruct (position c rest) as [i|]; cbn [option_map]; [|lia].
      rewrite Nat2Z.inj_succ. f_equal. f_equal. lia.
Qed.

(** X12.  For ballots whose rankings have no repetition, the Borda score
    of a candidate is the sum, over the ballots that rank it, of the
    weight times [maxPoints] minus its position; a ballot that does not
    rank it gives it nothing. *)
Theorem borda_scores (candidates : list str) (ballots : list ballot)
    (c : str)
    (Hnd : Forall (fun b => NoDup (snd b)) ballots) :
  counter_get c (borda_winner candidates ballots)
  = sum (map (borda_points (Z.of_nat (length candidates) - 1) c) ballots).
Proof.
  unfold borda_winner.
  set (m := Z.of_nat (length candidates) - 1).
  assert (H : forall scores,
             counter_get c
               (fold_left
                  (fun scores (b : ballot) =>
                     let '(count, ranking) := b in
                     borda_ballot m count 0 ranking scores)
                  ballots scores)
             = counter_get c scores + sum (map (borda_points m c) ballots)).
  { induction Hnd as [|[count ranking] bs Hb _ IH]; intros scores.
    - simpl. rewrite sum_nil. lia.
    - cbn [fold_left map]. rewrite IH, sum_cons.
      rewrite (borda_ballot_get m count c ranking Hb).
      unfold borda_points. cbn [fst snd].
      destruct (position c ranking); cbn; lia. }
  rewrite H. rewrite (counter_get_zero c _ (zero_scores_values candidates)).
  lia.
Qed.

Lemma borda_scores_witness :
  Forall (fun b : ballot => NoDup (snd b)) demo_ballots
  /\ counter_get Bob (borda_winner demo_candidates demo_ballots)
     = 10 * 2 + 8 * 3 + 6 * 1 + 4 * 0.
Proof.
  assert (Hnd : Forall (fun b : ballot => NoDup (snd b)) demo_ballots).
  { pose proof (valid_ballotsb_sound demo_candidates demo_ballots eq_refl)
      as [_ H].
    eapply Forall_impl; [|exact H]. intros b Hb. apply Hb. }
  split; [exact Hnd|].
  rewrite (borda_scores demo_candidates demo_ballots Bob Hnd). reflexivity.
Defined.

Lemma borda_ballot_skip (max_points count : Z) (c : str)
    (ranking : list str) :
  ~ In c ranking ->
  forall (idx : Z) (scores : counter),
    counter_get c (borda_ballot max_points count idx ranking scores)
    = counter_get c scores.
Proof.
  induction ranking as [|x rest IH]; intros Hc idx scores; [reflexivity|].
  cbn [borda_ballot]. rewrite IH by (intros H; apply Hc; now right).
  rewrite counter_get_add.
  replace (str_eqb c x) with false; [reflexivity|].
  symmetry. apply str_eqb_neq. intros ->. apply Hc. now left.
Qed.

Lemma counter_set_keys_new (k : str) (v : Z) (d : counter) :
  ~ In k (keys d) -> keys (counter_set k v d) = keys d ++ [k].
Proof.
  induction d as [|[k' v'] d IH]; simpl; intros H; [reflexivity|].
  destruct (str_eqb k k') eqn:E.
  - apply str_eqb_eq in E. subst. exfalso. apply H. now left.
  - simpl. f_equal. apply IH. tauto.
Qed.

Lemma zero_scores_keys_from (candidates : list str) :
  forall d,
    NoDup (keys d ++ candidates) ->
    keys (fold_left (fun d c => counter_set c 0 d) candidates d)
    = keys d ++ candidates.
Proof.
  induction candidates as [|c cs IH]; intros d Hnd; simpl.
  - now rewrite app_nil_r.
  - assert (Hc : ~ In c (keys d)).
    { apply NoDup_remove_2 in Hnd. intros Hin. apply Hnd.
      apply in_or_app. now left. }
    rewrite IH; rewrite counter_set_keys_new by assumption;
      rewrite <- app_assoc; [reflexivity | exact Hnd].
Qed.

Lemma zero_scores_keys (candidates : list str) :
  NoDup candidates -> keys (zero_scores candidates) = candidates.
Proof.
  intros Hnd. unfold zero_scores.
  now rewrite zero_scores_keys_from.
Qed.

Lemma counter_add_keys_old (k : str) (n : Z) (d : counter) :
  In k (keys d) -> keys (counter_add k n d) = keys d.
Proof.
  induction d as [|[k' v] d IH]; simpl; [tauto|].
  destruct (str_eqb k k') eqn:E; [reflexivity|].
  intros [-> | Hin]; [now rewrite str_eqb_refl in E|].
  simpl. f_equal. now apply IH.
Qed.

Lemma borda_ballot_keys (max_points count : Z) (ranking : list str) :
  forall (idx : Z) (scores : counter),
    incl ranking (keys scores) ->
    keys (borda_ballot max_points count idx ranking scores) = keys scores.
Proof.
  induction ranking as [|x rest IH]; intros idx scores Hincl;
    [reflexivity|].
  cbn [borda_ballot].
  assert (Hx : In x (keys scores)) by (apply Hincl; now left).
  rewrite IH; rewrite counter_add_keys_old by assumption;
    [reflexivity|].
  intros y Hy. apply Hincl. now right.
Qed.

Lemma borda_keys (candidates : list str) (ballots : list ballot) :
  NoDup candidates ->
  Forall (fun b => incl (snd b) candidates) ballots ->
  keys (borda_winner candidates ballots) = candidates.
Proof.
  intros Hnd Hknown. unfold borda_winner.
  set (m := Z.of_nat (length candidates) - 1).
  assert (H : forall scores,
             keys scores = candidates ->
             keys (fold_left
                     (fun scores (b : ballot) =>
                        let '(count, ranking) := b in
                        borda_ballot m count 0 ranking scores)
                     ballots scores) = candidates).
  { induction Hknown as [|[count ranking] bs Hb _ IH]; intros scores Hk.
    - exact Hk.
    - cbn [fold_left]. apply IH.
      rewrite borda_ballot_keys; [exact Hk|]. now rewrite Hk. }
  apply H. now apply zero_scores_keys.
Qed.

(** X13.  For candidates without repetition and ballots that rank only
    candidates, the score table lists exactly the candidates, in their
    order, and a candidate that no ballot ranks is listed with score 0. *)
Theorem borda_lists_every_candidate (candidates : list str)
    (ballots : list ballot)
    (Hnd : NoDup candidates)
    (Hknown : Forall (fun b => incl (snd b) candidates) ballots) :
  keys (borda_winner candidates ballots) = candidates
  /\ forall c, In c candidates ->
       (forall b, In b ballots -> ~ In c (snd b)) ->
       In (c, 0) (borda_winner candidates ballots).
Proof.
  pose proof (borda_keys candidates ballots Hnd Hknown) as Hkeys.
  split; [exact Hkeys|]. intros c Hc Hunranked.
  rewrite <- Hkeys in Hc. apply in_map_iff in Hc as [[k v] [Hk Hin]].
  simpl in Hk. subst k.
  assert (Hget : counter_get c (borda_winner candidates ballots) = v).
  { apply counter_get_In; [now rewrite Hkeys | exact Hin]. }
  assert (Hzero : counter_get c (borda_winner candidates ballots) = 0).
  { unfold borda_winner.
    set (m := Z.of_nat (length candidates) - 1).
    assert (H : forall scores,
               counter_get c
                 (fold_left
                    (fun scores (b : ballot) =>
                       let '(count, ranking) := b in
                       borda_ballot m count 0 ranking scores)
                    ballots scores) = counter_get c scores).
    { clear Hknown Hin Hget Hkeys.
      induction ballots as [|[count ranking] bs IH]; intros scores;
        [reflexivity|].
      cbn [fold_left]. rewrite IH.
      - apply borda_ballot_skip.
        apply (Hunranked (count, ranking)). now left.
      - intros b Hb. apply Hunranked. now right. }
    rewrite H. apply counter_get_zero, zero_scores_values. }
  replace v with 0 in Hin by lia. exact Hin.
Qed.

Lemma borda_lists_every_candidate_witness :
  NoDup [cA; cB; cC]
  /\ borda_winner [cA; cB; cC] [(2, [cB])] = [(cA, 0); (cB, 4); (cC, 0)]
  /\ keys (borda_winner [cA; cB; cC] [(2, [cB])]) = [cA; cB; cC].
Proof.
  assert (Hnd : NoDup [cA; cB; cC])
    by (apply has_duplicates_false; reflexivity).
  split; [exact Hnd|]. split; [reflexivity|].
  apply (borda_lists_every_candidate [cA; cB; cC] [(2, [cB])] Hnd).
  constructor; [|constructor].
  intros x Hx. destruct Hx as [<- | []]. right. now left.
Defined.

Lemma max_item_spec (items : counter) :
  forall (pre mid : counter) (best : str * Z),
    (forall kv, In kv pre -> snd kv < snd best) ->
    (forall kv, In kv mid -> snd kv <= snd best) ->
    exists before after,
      pre ++ best :: mid ++ items
      = before ++ max_item best items :: after
      /\ (forall kv, In kv before -> snd kv < snd (max_item best items))
      /\ (forall kv, In kv after -> snd kv <= snd (max_item best items)).
Proof.
  induction items as [|kv rest IH]; intros pre mid best Hpre Hmid.
  - exists pre, mid. rewrite app_nil_r. auto.
  - cbn [max_item]. destruct (snd best <? snd kv) eqn:E.
    + apply Z.ltb_lt in E.
      destruct (IH (pre ++ best :: mid) [] kv) as [b [a [Heq H]]].
      * intros x Hx. apply in_app_or in Hx as [Hx | [<- | Hx]].
        -- specialize (Hpre x Hx). lia.
        -- exact E.
        -- specialize (Hmid x Hx). lia.
      * intros x [].
      * exists b, a. split; [|exact H]. rewrite <- Heq.
        rewrite <- app_assoc. reflexivity.
    + apply Z.ltb_ge in E.
      destruct (IH pre (mid ++ [kv]) best Hpre) as [b [a [Heq H]]].
      * intros x Hx. apply in_app_or in Hx as [Hx | [<- | []]]; auto.
      * exists b, a. split; [|exact H]. rewrite <- Heq.
        rewrite <- app_assoc. reflexivity.
Qed.

(** X14.  The Borda winner that the report names, for candidates without
    repetition (at least one) and ballots that rank only candidates: it is
    a candidate, no candidate has a higher score, and every candidate
    listed before it has a strictly lower score (ties go to the candidate
    listed first). *)
Theorem borda_top_is_first_maximum (candidates : list str)
    (ballots : list ballot)
    (Hvalid : valid_candidates candidates)
    (Hknown : Forall (fun b => incl (snd b) candidates) ballots) :
  let score c := counter_get c (borda_winner candidates ballots) in
  exists w before after,
    borda_top (borda_winner candidates ballots) = Some w
    /\ candidates = before ++ w :: after
    /\ (forall c, In c before -> score c < score w)
    /\ (forall c, In c candidates -> score c <= score w).
Proof.
  destruct Hvalid as [Hnd Hne]. cbv zeta.
  pose proof (borda_keys candidates ballots Hnd Hknown)
    as Hkeys.
  set (scores := borda_winner candidates ballots) in *.
  assert (Hndk : NoDup (keys scores)) by now rewrite Hkeys.
  destruct scores as [|kv rest] eqn:Es.
  { simpl in Hkeys. congruence. }
  destruct (max_item_spec rest [] [] kv) as [b [a [Heq [Hb Ha]]]];
    [intros x [] | intros x [] |].
  cbn [app] in Heq.
  set (top := max_item kv rest) in *.
  assert (Hget : forall x, In x (kv :: rest) ->
             counter_get (fst x) (kv :: rest) = snd x).
  { intros [k v] Hx. now apply counter_get_In. }
  assert (Htop : In top (kv :: rest))
    by (rewrite Heq; apply in_or_app; right; now left).
  exists (fst top), (keys b), (keys a).
  split; [reflexivity|]. split; [|split].
  - rewrite <- Hkeys, Heq. unfold keys. rewrite map_app. reflexivity.
  - intros c Hc. apply in_map_iff in Hc as [x [<- Hx]].
    rewrite (Hget top Htop), (Hget x); [now apply Hb|].
    rewrite Heq. apply in_or_app. now left.
  - intros c Hc. rewrite <- Hkeys in Hc.
    apply in_map_iff in Hc as [x [<- Hx]].
    rewrite (Hget top Htop), (Hget x Hx).
    rewrite Heq in Hx. apply in_app_or in Hx as [Hx | [<- | Hx]].
    + specialize (Hb x Hx). lia.
    + lia.
    + now apply Ha.
Qed.

Lemma borda_top_is_first_maximum_witness :
  valid_candidates demo_candidates
  /\ borda_top (borda_winner demo_candidates demo_ballots) = Some Bob.
Proof.
  assert (Hvalid : valid_candidates demo_candidates)
    by (split; [apply has_duplicates_false; reflexivity | discriminate]).
  split; [exact Hvalid|].
  destruct (borda_top_is_first_maximum demo_candidates demo_ballots Hvalid)
    as [w [b [a [Htop _]]]].
  - pose proof (valid_ballotsb_sound demo_candidates demo_ballots eq_refl)
      as [_ H].
    eapply Forall_impl; [|exact H]. intros x Hx. apply Hx.
  - rewrite Htop. vm_compute in Htop. injection Htop as <-. reflexivity.
Defined.

(* ================================================================== *)
(** * More on Condorcet                                                *)
(* ================================================================== *)

Lemma pairwise_get_add (x y a b : str) (n : Z) (m : matrix) :
  pairwise_get x y (pairwise_add a b n m)
  = pairwise_get x y m + if str_eqb x a && str_eqb y b then n else 0.
Proof.
  unfold pairwise_get, pairwise_add. rewrite matrix_row_update.
  destruct (str_eqb x a) eqn:Ea; cbn [andb]; [|lia].
  apply str_eqb_eq in Ea. subst x. rewrite counter_get_add.
  destruct (str_eqb y b) eqn:Eb; [|lia].
  apply str_eqb_eq in Eb. now subst y.
Qed.

Lemma pairwise_losers (w : str) (count : Z) (x y : str)
    (later : list str) :
  NoDup later ->
  forall m,
    pairwise_get x y
      (fold_left (fun m loser => pairwise_add w loser count m) later m)
    = pairwise_get x y m
      + if str_eqb x w && mem y later then count else 0.
Proof.
  induction 1 as [|l later Hnotin Hnd IH]; intros m.
  - simpl. rewrite andb_false_r. lia.
  - cbn [fold_left]. rewrite IH, pairwise_get_add.
    unfold mem. cbn [existsb]. fold (mem y later).
    destruct (str_eqb x w); cbn [andb]; [|lia].
    destruct (str_eqb y l) eqn:E; cbn [orb].
    + apply str_eqb_eq in E. subst l.
      replace (mem y later) with false
        by (symmetry; now apply mem_false).
      lia.
    + destruct (mem y later); lia.
Qed.

Lemma ranks_before_In (a b : str) (ranking : list str) :
  ranks_before a b ranking = true -> In a ranking /\ In b ranking.
Proof.
  induction ranking as [|x rest IH]; simpl; [discriminate|].
  destruct (str_eqb x a) eqn:E.
  - apply str_eqb_eq in E. intros H. apply mem_In in H. auto.
  - intros H. apply IH in H. tauto.
Qed.

Lemma ranks_before_absent (a b : str) (ranking : list str) :
  ~ In a ranking -> ranks_before a b ranking = false.
Proof.
  intros H. destruct (ranks_before a b ranking) eqn:E; [|reflexivity].
  apply ranks_before_In in E. tauto.
Qed.

Lemma pairwise_ballot_get (count : Z) (x y : str) (ranking : list str) :
  NoDup ranking ->
  forall m,
    pairwise_get x y (pairwise_ballot count ranking m)
    = pairwise_get x y m + if ranks_before x y ranking then count else 0.
Proof.
  induction 1 as [|w later Hnotin Hnd IH]; intros m.
  - simpl. lia.
  - cbn [pairwise_ballot ranks_before].
    rewrite IH, (pairwise_losers w count x y later Hnd).
    destruct (str_eqb w x) eqn:E.
    + apply str_eqb_eq in E. subst w. rewrite str_eqb_refl. cbn [andb].
      rewrite (ranks_before_absent x y later Hnotin). lia.
    + replace (str_eqb x w) with false.
      * cbn [andb]. lia.
      * symmetry. apply str_eqb_neq. apply str_eqb_neq in E. congruence.
Qed.

Lemma pairwise_matrix_get (ballots : list ballot) (a b : str) :
  Forall (fun bl => NoDup (snd bl)) ballots ->
  pairwise_get a b (pairwise_matrix ballots)
  = sum (map (head_to_head a b) ballots).
Proof.
  intros Hnd. unfold pairwise_matrix.
  assert (H : forall m,
             pairwise_get a b
               (fold_left
                  (fun m (bl : ballot) =>
                     let '(count, ranking) := bl in
                     pairwise_ballot count ranking m) ballots m)
             = pairwise_get a b m + sum (map (head_to_head a b) ballots)).
  { induction Hnd as [|[count ranking] bs Hb _ IH]; intros m.
    - simpl. rewrite sum_nil. lia.
    - cbn [fold_left map]. rewrite IH, sum_cons.
      rewrite (pairwise_ballot_get count a b ranking Hb).
      unfold head_to_head. cbn [fst snd]. lia. }
  rewrite H. reflexivity.
Qed.

Lemma ranks_before_asym (a b : str) (ranking : list str) :
  NoDup ranking ->
  ranks_before a b ranking = true -> ranks_before b a ranking = false.
Proof.
  induction 1 as [|x rest Hnotin Hnd IH]; simpl; [discriminate|].
  destruct (str_eqb x a) eqn:Ea.
  - apply str_eqb_eq in Ea. subst x. intros Hb. apply mem_In in Hb.
    destruct (str_eqb a b) eqn:Eab.
    + apply str_eqb_eq in Eab. subst b. contradiction.
    + destruct (ranks_before b a rest) eqn:E; [|reflexivity].
      apply ranks_before_In in E. tauto.
  - intros H. destruct (str_eqb x b) eqn:Eb.
    + apply str_eqb_eq in Eb. subst x.
      apply ranks_before_In in H. tauto.
    + now apply IH.
Qed.

Lemma ranks_before_split (a b : str) (ranking : list str) :
  NoDup ranking ->
  (ranks_before a b ranking = true <->
   exists l1 l2 l3, ranking = l1 ++ a :: l2 ++ b :: l3).
Proof.
  intros Hnd. split.
  - clear Hnd. induction ranking as [|x rest IH]; simpl; [discriminate|].
    destruct (str_eqb x a) eqn:E.
    + apply str_eqb_eq in E. subst x. intros H. apply mem_In in H.
      apply in_split in H as [l2 [l3 ->]]. now exists [], l2, l3.
    + intros H. destruct (IH H) as [l1 [l2 [l3 ->]]].
      now exists (x :: l1), l2, l3.
  - intros [l1 [l2 [l3 ->]]].
    induction l1 as [|x l1 IH]; cbn [app ranks_before].
    + rewrite str_eqb_refl. apply mem_In. apply in_or_app. right. now left.
    + inversion Hnd as [|? ? Hx Hnd']; subst.
      replace (str_eqb x a) with false; [now apply IH|].
      symmetry. apply str_eqb_neq. intros ->. apply Hx.
      apply in_or_app. right. now left.
Qed.

(** X15.  For ballots whose rankings have no repetition, the entry
    [pairwise[a][b]] is the total weight of the ballots that rank [a]
    before [b] (both ranked, [a] earlier); ballots that rank at most one of
    the two add nothing. *)
Theorem pairwise_weights (ballots : list ballot) (a b : str)
    (Hnd : Forall (fun bl => NoDup (snd bl)) ballots) :
  pairwise_get a b (pairwise_matrix ballots)
  = sum (map (head_to_head a b) ballots)
  /\ forall bl, In bl ballots ->
       (head_to_head a b bl = fst bl
        /\ exists l1 l2 l3, snd bl = l1 ++ a :: l2 ++ b :: l3)
       \/ (head_to_head a b bl = 0
           /\ ~ exists l1 l2 l3, snd bl = l1 ++ a :: l2 ++ b :: l3).
Proof.
  split; [now apply pairwise_matrix_get|].
  intros bl Hbl. rewrite Forall_forall in Hnd. specialize (Hnd bl Hbl).
  unfold head_to_head. destruct (ranks_before a b (snd bl)) eqn:E.
  - left. split; [reflexivity|]. now apply ranks_before_split.
  - right. split; [reflexivity|]. intros H.
    apply (ranks_before_split a b _ Hnd) in H. congruence.
Qed.

Lemma pairwise_weights_witness :
  Forall (fun bl : ballot => NoDup (snd bl)) demo_ballots
  /\ pairwise_get Alice Bob (pairwise_matrix demo_ballots) = 10 + 0 + 6 + 4.
Proof.
  assert (Hnd : Forall (fun b : ballot => NoDup (snd b)) demo_ballots).
  { pose proof (valid_ballotsb_sound demo_candidates demo_ballots eq_refl)
      as [_ H].
    eapply Forall_impl; [|exact H]. intros b Hb. apply Hb. }
  split; [exact Hnd|].
  destruct (pairwise_weights demo_ballots Alice Bob Hnd) as [H _].
  rewrite H. reflexivity.
Defined.

(** X16.  For valid ballots no candidate has weight against itself, no
    entry is negative, and the two entries of a pair never add up to more
    than the total weight of the ballots. *)
Theorem pairwise_bounds (candidates : list str) (ballots : list ballot)
    (a b : str)
    (Hvalid : valid_ballots candidates ballots) :
  pairwise_get a a (pairwise_matrix ballots) = 0
  /\ 0 <= pairwise_get a b (pairwise_matrix ballots)
  /\ pairwise_get a b (pairwise_matrix ballots)
     + pairwise_get b a (pairwise_matrix ballots)
     <= sum (weights ballots).
Proof.
  destruct Hvalid as [_ Hall].
  assert (Hnd : Forall (fun bl : ballot => NoDup (snd bl)) ballots).
  { eapply Forall_impl; [|exact Hall]. intros bl Hb. apply Hb. }
  rewrite !pairwise_matrix_get by assumption.
  clear Hnd. unfold weights. split; [|split].
  - apply sum_zeros. apply Forall_forall. intros v Hv.
    apply in_map_iff in Hv as [bl [<- Hbl]].
    rewrite Forall_forall in Hall. destruct (Hall bl Hbl) as [_ [Hnd _]].
    unfold head_to_head.
    destruct (ranks_before a a (snd bl)) eqn:E; [|reflexivity].
    pose proof (ranks_before_asym a a _ Hnd E). congruence.
  - apply sum_nonneg. apply Forall_forall. intros v Hv.
    apply in_map_iff in Hv as [bl [<- Hbl]].
    rewrite Forall_forall in Hall. destruct (Hall bl Hbl) as [Hpos _].
    unfold head_to_head. destruct (ranks_before a b (snd bl)); lia.
  - induction Hall as [|bl bs [Hpos [Hnd _]] _ IH]; cbn [map].
    + rewrite !sum_nil. lia.
    + rewrite !sum_cons. unfold head_to_head at 1 3.
      pose proof (ranks_before_asym a b _ Hnd) as Hasym.
      destruct (ranks_before a b (snd bl));
        destruct (ranks_before b a (snd bl)); try lia;
        specialize (Hasym eq_refl); discriminate.
Qed.

Lemma pairwise_bounds_witness :
  valid_ballots demo_candidates demo_ballots
  /\ pairwise_get Alice Bob (pairwise_matrix demo_ballots)
     + pairwise_get Bob Alice (pairwise_matrix demo_ballots)
     <= sum (weights demo_ballots).
Proof.
  assert (Hvalid : valid_ballots demo_candidates demo_ballots)
    by (apply valid_ballotsb_sound; reflexivity).
  split; [exact Hvalid|].
  apply (pairwise_bounds demo_candidates demo_ballots Alice Bob Hvalid).
Defined.

Lemma filter_length_all {A} (p : A -> bool) (l : list A) :
  length (filter p l) = length l <-> forall x, In x l -> p x = true.
Proof.
  induction l as [|y l IH]; simpl.
  - split; [intros _ x [] | reflexivity].
  - pose proof (filter_length_le p l) as Hle.
    destruct (p y) eqn:E; simpl.
    + split.
      * intros H x [<- | Hx]; [exact E|]. apply IH; [lia | exact Hx].
      * intros H. f_equal. apply IH. intros x Hx. apply H. now right.
    + split; [lia|]. intros H. specialize (H y (or_introl eq_refl)).
      congruence.
Qed.

(** In a list without repetition, a test that fails on [c] holds on
    all but one element exactly when it holds on every other element. *)
Lemma filter_all_but_one (p : str -> bool) (l : list str) (c : str) :
  NoDup l -> In c l -> p c = false ->
  ((length (filter p l) + 1 = length l)%nat
   <-> forall b, In b l -> b <> c -> p b = true).
Proof.
  induction 1 as [|y l Hnotin Hnd IH]; [intros []|].
  intros Hin Hc. cbn [filter length].
  pose proof (filter_length_le p l) as Hle.
  destruct (str_eq_dec y c) as [-> | Hne].
  - rewrite Hc. rewrite Nat.add_1_r. split.
    + intros H b [<- | Hb] Hbc; [congruence|].
      apply (proj1 (filter_length_all p l)); [lia | exact Hb].
    + intros H. f_equal. apply filter_length_all.
      intros x Hx. apply H; [now right|]. intros ->. contradiction.
  - destruct Hin as [-> | Hin]; [congruence|]. specialize (IH Hin Hc).
    destruct (p y) eqn:E; cbn [length].
    + split.
      * intros H b [<- | Hb] Hbc; [exact E|].
        apply (proj1 IH); [lia | exact Hb | exact Hbc].
      * intros H. cbn [Nat.add]. f_equal. apply (proj2 IH).
        intros b Hb. apply H. now right.
    + split.
      * intros H. exfalso.
        assert (Hlt : (length (filter p l) + 1 <= length l)%nat).
        { destruct (Nat.eq_dec (length (filter p l)) (length l)) as [He|];
            [|lia].
          apply filter_length_all with (x := c) in He; congruence. }
        lia.
      * intros H. specialize (H y (or_introl eq_refl) Hne). congruence.
Qed.

Lemma wins_all (m : matrix) (candidates : list str) (c : str) :
  NoDup candidates -> In c candidates ->
  (wins m candidates c = Z.of_nat (length candidates) - 1
   <-> forall b, In b candidates -> b <> c ->
         pairwise_get b c m < pairwise_get c b m).
Proof.
  intros Hnd Hc.
  assert (Hself : beats m c c = false)
    by (unfold beats; now rewrite str_eqb_refl).
  pose proof (filter_all_but_one (beats m c) candidates c Hnd Hc Hself)
    as Hcount.
  unfold wins. split.
  - intros H b Hb Hbc.
    assert (Hb' : beats m c b = true) by (apply Hcount; [lia | | ]; auto).
    unfold beats in Hb'. apply andb_true_iff in Hb' as [_ Hlt].
    now apply Z.ltb_lt.
  - intros H.
    assert (Hn : (length (filter (beats m c) candidates) + 1
                  = length candidates)%nat).
    { apply Hcount. intros b Hb Hbc. unfold beats.
      apply andb_true_iff. split.
      - apply negb_true_iff, str_eqb_neq. congruence.
      - apply Z.ltb_lt. now apply H. }
    lia.
Qed.

(** X17.  For candidates without repetition, the winner that
    [condorcet_winner] returns is [c] exactly when [c] is a candidate and
    [pairwise[c][b] > pairwise[b][c]] for every other candidate [b]; there
    is at most one such candidate, and the result is [None] when there is
    none. *)
Theorem condorcet_winner_beats_all (candidates : list str)
    (ballots : list ballot) (c : str)
    (Hvalid : valid_candidates candidates) :
  fst (fst (condorcet_winner candidates ballots)) = Some c
  <-> In c candidates
      /\ forall b, In b candidates -> b <> c ->
           pairwise_get b c (pairwise_matrix ballots)
           < pairwise_get c b (pairwise_matrix ballots).
Proof.
  destruct Hvalid as [Hnd _].
  unfold condorcet_winner.
  pose proof (count_victories_ok candidates (pairwise_matrix ballots) Hnd)
    as [_ Hv].
  destruct (count_victories candidates (pairwise_matrix ballots))
    as [m1 v1].
  cbn [fst snd] in *.
  set (M := pairwise_matrix ballots) in *.
  set (n := Z.of_nat (length candidates)) in *.
  assert (Htest : forall x, In x candidates ->
             ((counter_get x v1 =? n - 1) = true
              <-> forall b, In b candidates -> b <> x ->
                    pairwise_get b x M < pairwise_get x b M)).
  { intros x Hx. rewrite Z.eqb_eq, Hv.
    replace (mem x candidates) with true by (symmetry; now apply mem_In).
    now apply wins_all. }
  split.
  - intros H. apply find_some in H as [Hin Ht].
    split; [exact Hin|]. exact (proj1 (Htest c Hin) Ht).
  - intros [Hin Hall].
    destruct (find (fun candidate => counter_get candidate v1 =? n - 1)
                candidates) as [x|] eqn:Ef.
    + apply find_some in Ef as [Hx Ht]. f_equal.
      destruct (str_eq_dec x c) as [-> | Hne]; [reflexivity|].
      pose proof (proj1 (Htest x Hx) Ht c Hin (fun H => Hne (eq_sym H)))
        as Hxc.
      specialize (Hall x Hx Hne). lia.
    + pose proof (find_none _ _ Ef c Hin) as Hc.
      destruct (eq_true_false_abs _ (proj2 (Htest c Hin) Hall) Hc).
Qed.

Lemma condorcet_winner_beats_all_witness :
  valid_candidates [cA; cB; cC]
  /\ fst (fst (condorcet_winner [cA; cB; cC]
                 [(3, [cA; cB; cC]); (2, [cB; cA; cC])])) = Some cA
  /\ pairwise_get cB cA
       (pairwise_matrix [(3, [cA; cB; cC]); (2, [cB; cA; cC])])
     < pairwise_get cA cB
         (pairwise_matrix [(3, [cA; cB; cC]); (2, [cB; cA; cC])]).
Proof.
  assert (Hvalid : valid_candidates [cA; cB; cC])
    by (split; [apply has_duplicates_false; reflexivity | discriminate]).
  split; [exact Hvalid|].
  assert (Hw : fst (fst (condorcet_winner [cA; cB; cC]
                           [(3, [cA; cB; cC]); (2, [cB; cA; cC])]))
               = Some cA) by (vm_compute; reflexivity).
  split; [exact Hw|].
  apply (condorcet_winner_beats_all _ _ cA Hvalid) in Hw as [_ Hall].
  apply Hall; [right; now left | discriminate].
Defined.

(* ================================================================== *)
(** * The order of the ballots                                         *)
(* ================================================================== *)

Lemma sum_map_perm {A} (f : A -> Z) (l l' : list A) :
  Permutation l l' -> sum (map f l) = sum (map f l').
Proof.
  induction 1 as [| x l l' _ IH | x y l | l1 l2 l3 _ IH1 _ IH2]; cbn [map].
  - reflexivity.
  - rewrite !sum_cons. lia.
  - rewrite !sum_cons. lia.
  - lia.
Qed.

(** Two counters with the same keys, in the same order and without
    repetition, and the same counts are equal. *)
Lemma counter_ext (d d' : counter) :
  keys d = keys d' -> NoDup (keys d) ->
  (forall c, counter_get c d = counter_get c d') -> d = d'.
Proof.
  revert d'. induction d as [|[k v] d IH]; intros [|[k' v'] d'] Hk Hnd Hget;
    try discriminate; [reflexivity|].
  simpl in Hk. injection Hk as <- Hk.
  inversion Hnd as [|? ? Hnotin Hnd']; subst.
  pose proof (Hget k) as Hv. simpl in Hv. rewrite str_eqb_refl in Hv.
  subst v'. f_equal. apply IH; auto.
  intros c. destruct (str_eq_dec c k) as [-> | Hne].
  - rewrite !counter_get_missing; [reflexivity | now rewrite <- Hk | exact Hnotin].
  - specialize (Hget c). simpl in Hget.
    replace (str_eqb c k) with false in Hget
      by (symmetry; now apply str_eqb_neq).
    exact Hget.
Qed.

(** X18.  The Borda score table does not depend on the order of the
    ballots (for candidates without repetition and valid ballots). *)
Theorem borda_ballot_order (candidates : list str)
    (ballots ballots' : list ballot)
    (Hnd : NoDup candidates)
    (Hvalid : valid_ballots candidates ballots)
    (Hperm : Permutation ballots ballots') :
  borda_winner candidates ballots = borda_winner candidates ballots'.
Proof.
  destruct Hvalid as [_ Hall].
  assert (Hall' : Forall (valid_ballot candidates) ballots')
    by (eapply Permutation_Forall; eassumption).
  assert (Hk : forall bs, Forall (valid_ballot candidates) bs ->
             Forall (fun b => incl (snd b) candidates) bs
             /\ Forall (fun b : ballot => NoDup (snd b)) bs).
  { intros bs H. split; eapply Forall_impl; try exact H;
      intros b Hb; apply Hb. }
  destruct (Hk _ Hall) as [Hin Hnr]. destruct (Hk _ Hall') as [Hin' Hnr'].
  apply counter_ext.
  - now rewrite !borda_keys.
  - now rewrite borda_keys.
  - intros c. rewrite !borda_scores by assumption.
    now apply sum_map_perm.
Qed.

Lemma borda_ballot_order_witness :
  NoDup demo_candidates
  /\ valid_ballots demo_candidates demo_ballots
  /\ borda_winner demo_candidates demo_ballots
     = borda_winner demo_candidates (rev demo_ballots).
Proof.
  assert (Hnd : NoDup demo_candidates)
    by (apply has_duplicates_false; reflexivity).
  assert (Hvalid : valid_ballots demo_candidates demo_ballots)
    by (apply valid_ballotsb_sound; reflexivity).
  split; [exact Hnd|]. split; [exact Hvalid|].
  apply (borda_ballot_order _ _ _ Hnd Hvalid). apply Permutation_rev.
Defined.

Lemma find_same {A} (p q : A -> bool) (l : list A) :
  (forall x, p x = q x) -> find p l = find q l.
Proof.
  intros H. induction l as [|x l IH]; simpl; [reflexivity|].
  rewrite H. destruct (q x); [reflexivity | exact IH].
Qed.

(** X19.  Neither the entries of the pairwise matrix nor the Condorcet
    winner depend on the order of the ballots (for candidates without
    repetition and ballots whose rankings have no repetition). *)
Theorem condorcet_ballot_order (candidates : list str)
    (ballots ballots' : list ballot)
    (Hvalid : valid_candidates candidates)
    (Hnd : Forall (fun b : ballot => NoDup (snd b)) ballots)
    (Hperm : Permutation ballots ballots') :
  (forall a b, pairwise_get a b (pairwise_matrix ballots)
               = pairwise_get a b (pairwise_matrix ballots'))
  /\ fst (fst (condorcet_winner candidates ballots))
     = fst (fst (condorcet_winner candidates ballots')).
Proof.
  assert (Hnd' : Forall (fun b : ballot => NoDup (snd b)) ballots')
    by (eapply Permutation_Forall; eassumption).
  assert (Hsame : forall a b,
             pairwise_get a b (pairwise_matrix ballots)
             = pairwise_get a b (pairwise_matrix ballots')).
  { intros a b. rewrite !pairwise_matrix_get by assumption.
    now apply sum_map_perm. }
  split; [exact Hsame|].
  destruct Hvalid as [Hc Hne].
  unfold condorcet_winner.
  pose proof (count_victories_ok candidates (pairwise_matrix ballots) Hc)
    as [_ Hv].
  pose proof (count_victories_ok candidates (pairwise_matrix ballots') Hc)
    as [_ Hv'].
  destruct (count_victories candidates (pairwise_matrix ballots))
    as [m1 v1].
  destruct (count_victories candidates (pairwise_matrix ballots'))
    as [m2 v2].
  cbn [fst snd] in *. apply find_same. intros x.
  rewrite Hv, Hv'.
  rewrite (same_entries_wins (pairwise_matrix ballots)
             (pairwise_matrix ballots') candidates x); [reflexivity|].
  intros a b. symmetry. apply Hsame.
Qed.

Lemma condorcet_ballot_order_witness :
  valid_candidates demo_candidates
  /\ fst (fst (condorcet_winner demo_candidates demo_ballots))
     = fst (fst (condorcet_winner demo_candidates (rev demo_ballots))).
Proof.
  assert (Hvalid : valid_candidates demo_candidates)
    by (split; [apply has_duplicates_false; reflexivity | discriminate]).
  split; [exact Hvalid|].
  apply (condorcet_ballot_order _ _ _ Hvalid).
  - pose proof (valid_ballotsb_sound demo_candidates demo_ballots eq_refl)
      as [_ H].
    eapply Forall_impl; [|exact H]. intros b Hb. apply Hb.
  - apply Permutation_rev.
Defined.

Lemma counter_In_get (c : str) (d : counter) :
  In c (keys d) -> NoDup (keys d) -> In (c, counter_get c d) d.
Proof.
  intros Hin Hnd. apply in_map_iff in Hin as [[k v] [Hk Hin]].
  simpl in Hk. subst k.
  now rewrite (counter_get_In c v d Hnd Hin).
Qed.

Section BallotOrder.
Variables (remaining : list str) (ballots ballots' : list ballot).
Hypothesis Hperm : Permutation ballots ballots'.

Let t := irv_tally remaining ballots.
Let t' := irv_tally remaining ballots'.

Lemma tally_perm_get (c : str) : counter_get c t = counter_get c t'.
Proof.
  unfold t, t', irv_tally. rewrite !fold_count_get.
  f_equal. now apply sum_map_perm.
Qed.

Lemma tally_perm_keys (c : str) : In c (keys t) <-> In c (keys t').
Proof.
  unfold t, t', irv_tally. rewrite !fold_count_keys.
  split; (intros [H | [b [Hb Hf]]]; [now left|]; right; exists b;
          split; [|exact Hf]).
  - eapply Permutation_in; eassumption.
  - eapply Permutation_in; [apply Permutation_sym|]; eassumption.
Qed.

Lemma tally_perm_sum : sum (values t) = sum (values t').
Proof.
  unfold t, t'. rewrite !irv_tally_sum. now apply sum_map_perm.
Qed.

Lemma tally_perm_In (c : str) (v : Z) : In (c, v) t -> In (c, v) t'.
Proof.
  intros Hin.
  destruct (irv_tally_ok remaining ballots) as [Hnd _].
  destruct (irv_tally_ok remaining ballots') as [Hnd' _].
  fold t in Hnd. fold t' in Hnd'.
  rewrite <- (counter_get_In c v t Hnd Hin), tally_perm_get.
  apply counter_In_get; [|exact Hnd'].
  apply tally_perm_keys. change c with (fst (c, v)). now apply in_map.
Qed.

Lemma tally_perm_lowest_le :
  t <> [] -> lowest_votes t' <= lowest_votes t.
Proof.
  intros Hne. destruct (lowest_votes_attained t Hne) as [k Hk].
  apply tally_perm_In in Hk. now apply lowest_votes_le with (k := k).
Qed.
End BallotOrder.

Lemma tally_perm_lowest (remaining : list str)
    (ballots ballots' : list ballot) :
  Permutation ballots ballots' ->
  lowest_votes (irv_tally remaining ballots)
  = lowest_votes (irv_tally remaining ballots').
Proof.
  intros Hperm.
  pose proof (tally_perm_In remaining ballots ballots' Hperm) as H12.
  pose proof (tally_perm_In remaining ballots' ballots
                (Permutation_sym Hperm)) as H21.
  destruct (irv_tally remaining ballots) as [|[k v] t] eqn:E1;
    destruct (irv_tally remaining ballots') as [|[k' v'] t'] eqn:E2.
  - reflexivity.
  - destruct (H21 k' v' (or_introl eq_refl)).
  - destruct (H12 k v (or_introl eq_refl)).
  - rewrite <- E1, <- E2.
    pose proof (tally_perm_lowest_le remaining ballots ballots' Hperm) as L1.
    pose proof (tally_perm_lowest_le remaining ballots' ballots
                  (Permutation_sym Hperm)) as L2.
    rewrite E1, E2 in *.
    assert (lowest_votes ((k', v') :: t') <= lowest_votes ((k, v) :: t))
      by (apply L1; discriminate).
    assert (lowest_votes ((k, v) :: t) <= lowest_votes ((k', v') :: t'))
      by (apply L2; discriminate).
    lia.
Qed.

Lemma tally_perm_majority (remaining : list str)
    (ballots ballots' : list ballot) :
  Permutation ballots ballots' ->
  Forall (fun b => 0 < fst b) ballots ->
  sum (weights ballots) < 2 ^ 53 ->
  majority (sum (values (irv_tally remaining ballots)))
    (irv_tally remaining ballots)
  = majority (sum (values (irv_tally remaining ballots')))
      (irv_tally remaining ballots').
Proof.
  intros Hperm Hpos Hbound.
  assert (Hpos' : Forall (fun b => 0 < fst b) ballots')
    by (eapply Permutation_Forall; eassumption).
  rewrite <- (tally_perm_sum remaining ballots ballots' Hperm).
  set (total := sum (values (irv_tally remaining ballots))).
  assert (Hw : Forall (fun b : ballot => 0 <= fst b) ballots)
    by (eapply Forall_impl; [|exact Hpos]; simpl; intros; lia).
  pose proof (round_total_bounds remaining ballots Hw) as Hb.
  fold total in Hb. rewrite !majority_exact by lia. f_equal.
  assert (Hone : forall bs bs',
             Permutation bs bs' ->
             Forall (fun b => 0 < fst b) bs' ->
             sum (values (irv_tally remaining bs')) = total ->
             forall kv,
               find (fun kv => total <? 2 * snd kv) (irv_tally remaining bs)
               = Some kv ->
               find (fun kv => total <? 2 * snd kv) (irv_tally remaining bs')
               = Some kv).
  { intros bs bs' Hp Hps Hsum [c v] Hf. apply find_some in Hf as [Hin Hlt].
    apply Z.ltb_lt in Hlt. cbn [snd] in Hlt.
    apply find_majority_unique; try assumption; try lia.
    - eapply Forall_impl; [|apply (irv_tally_pos remaining bs' Hps)].
      simpl. intros; lia.
    - now apply (tally_perm_In remaining bs bs' Hp). }
  destruct (find _ (irv_tally remaining ballots)) as [kv|] eqn:E1.
  - rewrite (Hone ballots ballots' Hperm Hpos'
               (eq_sym (tally_perm_sum remaining ballots ballots' Hperm))
               kv E1).
    reflexivity.
  - destruct (find _ (irv_tally remaining ballots')) as [kv|] eqn:E2;
      [|reflexivity].
    rewrite (Hone ballots' ballots (Permutation_sym Hperm) Hpos eq_refl
               kv E2) in E1.
    discriminate.
Qed.

Lemma irv_loop_perm (ballots ballots' : list ballot)
    (Hperm : Permutation ballots ballots')
    (Hpos : Forall (fun b => 0 < fst b) ballots)
    (Hbound : sum (weights ballots) < 2 ^ 53) (fuel : nat) :
  forall (remaining : list str) (rounds rounds' : list irv_round)
         (w : str) (trail : list irv_round),
    same_rounds rounds rounds' ->
    irv_loop fuel ballots remaining rounds = Some (Ok (w, trail)) ->
    exists trail',
      irv_loop fuel ballots' remaining rounds' = Some (Ok (w, trail'))
      /\ same_rounds trail trail'.
Proof.
  induction fuel as [|fuel IH]; intros remaining rounds rounds' w trail Hsame;
    rewrite !irv_loop_eq;
    destruct (Nat.leb_spec (length remaining) 1) as [Hle | Hgt];
    try discriminate.
  - intros H. injection H as <- <-. now exists rounds'.
  - intros H. injection H as <- <-. now exists rounds'.
  - unfold irv_iteration.
    rewrite <- (tally_perm_majority remaining ballots ballots' Hperm Hpos
                  Hbound).
    rewrite <- (tally_perm_sum remaining ballots ballots' Hperm).
    assert (Hel : eliminated (irv_tally remaining ballots') remaining
                  = eliminated (irv_tally remaining ballots) remaining).
    { unfold eliminated. apply filter_ext. intros c.
      rewrite (tally_perm_get remaining ballots ballots' Hperm c).
      now rewrite (tally_perm_lowest remaining ballots ballots' Hperm). }
    rewrite Hel.
    set (total := sum (values (irv_tally remaining ballots))).
    assert (Hnew : same_rounds
                     (rounds ++ [mk_round (irv_tally remaining ballots)
                                   total remaining])
                     (rounds' ++ [mk_round (irv_tally remaining ballots')
                                    total remaining])).
    { apply Forall2_app; [exact Hsame|]. constructor; [|constructor].
      cbn. split; [reflexivity|]. split; [reflexivity|].
      intros c. now apply tally_perm_get. }
    destruct (total =? 0).
    + intros H. injection H as <- <-. eexists. split; [reflexivity|exact Hnew].
    + destruct (majority total (irv_tally remaining ballots))
        as [[c|]|e]; [| |discriminate].
      * intros H. injection H as <- <-.
        eexists. split; [reflexivity | exact Hnew].
      * destruct (remove_each _ remaining) as [r'|e]; [|discriminate].
        intros H. exact (IH _ _ _ _ _ Hnew H).
Qed.

(** X20.  With positive weights whose sum is below [2 ^ 53], the order of
    the ballots changes neither the IRV winner nor, round by round, the
    candidates in the race, the total and the tally of each candidate
    (only the order in which a tally lists its entries can change). *)
Theorem irv_ballot_order (candidates : list str)
    (ballots ballots' : list ballot)
    (Hpos : Forall (fun b => 0 < fst b) ballots)
    (Hbound : sum (weights ballots) < 2 ^ 53)
    (Hperm : Permutation ballots ballots') :
  exists w trail trail',
    irv_winner candidates ballots = Some (Ok (w, trail))
    /\ irv_winner candidates ballots' = Some (Ok (w, trail'))
    /\ same_rounds trail trail'.
Proof.
  assert (Hw : Forall (fun b : ballot => 0 <= fst b) ballots)
    by (eapply Forall_impl; [|exact Hpos]; simpl; intros; lia).
  destruct (irv_loop_returns ballots Hw Hbound (length candidates)
              candidates []) as [w [trail Hrun]]; [lia|].
  destruct (irv_loop_perm ballots ballots' Hperm Hpos Hbound
              (length candidates) candidates [] [] w trail
              (Forall2_nil _) Hrun) as [trail' [Hrun' Hsame]].
  now exists w, trail, trail'.
Qed.

Lemma irv_ballot_order_witness :
  Forall (fun b : ballot => 0 < fst b) demo_ballots
  /\ exists trail',
      irv_winner demo_candidates (rev demo_ballots)
      = Some (Ok (Chen, trail')).
Proof.
  assert (Hpos : Forall (fun b : ballot => 0 < fst b) demo_ballots)
    by (repeat constructor).
  split; [exact Hpos|].
  destruct (irv_ballot_order demo_candidates demo_ballots (rev demo_ballots)
              Hpos) as [w [trail [trail' [Hrun [Hrun' _]]]]].
  - reflexivity.
  - apply Permutation_rev.
  - exists trail'. rewrite Hrun'. vm_compute in Hrun.
    injection Hrun as <- _. reflexivity.
Defined.

(* ================================================================== *)
(** * The majority check and the first round, for every run            *)
(* ================================================================== *)

(** C4.  In every round with a positive total below [2 ^ 53], where the
    double [total / 2] is the exact quotient: the candidates are examined
    in the insertion order of the tally with the strict comparison
    [tally > total / 2], and the check yields the first that passes; that
    candidate is returned with the round appended and nothing eliminated
    (in round 1, with a trail of one round); when no candidate passes, a
    tally of exactly half included, nobody is declared and the elimination
    takes place.  With positive ballot weights a candidate whose tally
    strictly exceeds half the total is the one the check yields. *)
Theorem irv_majority_wins (ballots : list ballot) (remaining : list str)
    (Htwo : (2 <= length remaining)%nat)
    (Htotal : 0 < sum (values (irv_tally remaining ballots)) < 2 ^ 53) :
  let tally := irv_tally remaining ballots in
  let total := sum (values tally) in
  let this_round := mk_round tally total remaining in
  majority total tally
  = Ok (option_map fst (find (fun kv => total <? 2 * snd kv) tally))
  /\ (forall c,
         majority total tally = Ok (Some c) ->
         (forall rounds,
             irv_iteration ballots remaining rounds
             = Ok (Return c (rounds ++ [this_round])))
         /\ (forall fuel rounds,
                irv_loop (S fuel) ballots remaining rounds
                = Some (Ok (c, rounds ++ [this_round])))
         /\ irv_winner remaining ballots = Some (Ok (c, [this_round])))
  /\ (majority total tally = Ok None ->
      forall rounds,
        irv_iteration ballots remaining rounds
        = Ok (Continue (survivors tally remaining)
                (rounds ++ [this_round])))
  /\ ((forall c v, In (c, v) tally -> 2 * v <= total) ->
      majority total tally = Ok None)
  /\ (Forall (fun b => 0 < fst b) ballots ->
      forall c v, In (c, v) tally -> total < 2 * v ->
                  majority total tally = Ok (Some c)).
Proof.
  cbv zeta.
  set (tally := irv_tally remaining ballots) in *.
  set (total := sum (values tally)) in *.
  assert (Hexact : majority total tally
                   = Ok (option_map fst
                           (find (fun kv => total <? 2 * snd kv) tally)))
    by (apply majority_exact; lia).
  split; [exact Hexact|]. split; [|split; [|split]].
  - intros c Hm.
    assert (Hiter : forall rounds,
               irv_iteration ballots remaining rounds
               = Ok (Return c
                       (rounds ++ [mk_round tally total remaining]))).
    { intros rounds.
      pose proof (irv_iteration_cases ballots remaining rounds) as Hc.
      cbv zeta in Hc. fold tally in Hc. fold total in Hc.
      destruct (irv_iteration ballots remaining rounds)
        as [[w rs | r' rs] | e].
      - destruct Hc as [-> [[H0 _] | [_ Hw]]]; [lia|].
        rewrite Hm in Hw. injection Hw as <-. reflexivity.
      - destruct Hc as [_ [_ [Hn _]]]. rewrite Hm in Hn. discriminate.
      - destruct Hc as [_ Hr]. rewrite Hm in Hr. discriminate. }
    assert (Hloop : forall fuel rounds,
               irv_loop (S fuel) ballots remaining rounds
               = Some (Ok (c, rounds
                                ++ [mk_round tally total remaining]))).
    { intros fuel rounds. rewrite irv_loop_eq.
      destruct (Nat.leb_spec (length remaining) 1); [lia|].
      now rewrite Hiter. }
    split; [exact Hiter|]. split; [exact Hloop|].
    unfold irv_winner.
    destruct (length remaining) as [|n] eqn:E; [lia|]. apply (Hloop n []).
  - intros Hm rounds.
    pose proof (irv_iteration_cases ballots remaining rounds) as Hc.
    cbv zeta in Hc. fold tally in Hc. fold total in Hc.
    destruct (irv_iteration ballots remaining rounds)
      as [[w rs | r' rs] | e].
    + destruct Hc as [_ [[H0 _] | [_ Hw]]]; [lia|].
      rewrite Hm in Hw. discriminate.
    + destruct Hc as [-> [_ [_ ->]]]. reflexivity.
    + destruct Hc as [_ Hr]. rewrite Hm in Hr. discriminate.
  - intros Hhalf. rewrite Hexact.
    destruct (find (fun kv => total <? 2 * snd kv) tally) as [[c v]|] eqn:Ef;
      [|reflexivity].
    apply find_some in Ef as [Hin Hlt]. apply Z.ltb_lt in Hlt.
    cbn [snd] in Hlt. specialize (Hhalf c v Hin). lia.
  - intros Hpos c v Hin Hmaj. rewrite Hexact.
    rewrite (find_majority_unique total tally c v); auto; [|lia].
    eapply Forall_impl; [|apply (irv_tally_pos remaining ballots Hpos)].
    simpl. intros; lia.
Qed.

Lemma irv_majority_wins_witness :
  (* three votes against one: a winner in round 1 *)
  ((2 <= length [cA; cB])%nat
   /\ 0 < sum (values (irv_tally [cA; cB] [(3, [cA]); (1, [cB])])) < 2 ^ 53
   /\ irv_winner [cA; cB] [(3, [cA]); (1, [cB])]
      = Some (Ok (cA, [mk_round [(cA, 3); (cB, 1)] 4 [cA; cB]])))
  (* one vote each: exactly half is no majority *)
  /\ ((2 <= length tie_candidates)%nat
      /\ 0 < sum (values (irv_tally tie_candidates tie_ballots)) < 2 ^ 53
      /\ irv_iteration tie_ballots tie_candidates []
         = Ok (Continue [] [mk_round [(cA, 1); (cB, 1)] 2 [cA; cB]])).
Proof.
  split.
  - assert (Htwo : (2 <= length [cA; cB])%nat) by (simpl; lia).
    assert (Htotal : 0 < sum (values (irv_tally [cA; cB]
                                        [(3, [cA]); (1, [cB])])) < 2 ^ 53)
      by (split; reflexivity).
    split; [exact Htwo|]. split; [exact Htotal|].
    destruct (irv_majority_wins [(3, [cA]); (1, [cB])] [cA; cB] Htwo Htotal)
      as [_ [Hwin [_ [_ Hstrict]]]].
    apply (Hwin cA). apply (Hstrict (ltac:(repeat constructor)) cA 3).
    + left. reflexivity.
    + reflexivity.
  - assert (Htwo : (2 <= length tie_candidates)%nat) by (simpl; lia).
    assert (Htotal : 0 < sum (values (irv_tally tie_candidates tie_ballots))
                     < 2 ^ 53) by (split; reflexivity).
    split; [exact Htwo|]. split; [exact Htotal|].
    destruct (irv_majority_wins tie_ballots tie_candidates Htwo Htotal)
      as [_ [_ [Hnone [Hhalf _]]]].
    assert (Hties : forall c v,
               In (c, v) (irv_tally tie_candidates tie_ballots) ->
               2 * v <= sum (values (irv_tally tie_candidates tie_ballots))).
    { intros c v [H | [H | []]]; injection H as _ <-; vm_compute;
        discriminate. }
    exact (Hnone (Hhalf Hties) []).
Defined.

(** C7.  For every valid input with at least two candidates the engine
    produces an outcome.  When it returns, the trail starts with the round
    of all candidates, whose recorded total is the sum of its tally, is at
    most the sum of all ballot weights, and equals that sum when every
    ballot has a non-empty ranking.  It returns whenever the sum of the
    weights is below [2 ^ 53]; otherwise the only other outcome is the
    [OverflowError] of [total / 2]. *)
Theorem irv_round1_total (candidates : list str) (ballots : list ballot)
    (Htwo : (2 <= length candidates)%nat)
    (Hvalid : valid_ballots candidates ballots) :
  let total1 := sum (values (irv_tally candidates ballots)) in
  total1 <= sum (weights ballots)
  /\ (Forall (fun b => snd b <> []) ballots -> total1 = sum (weights ballots))
  /\ exists outcome,
      irv_winner candidates ballots = Some outcome
      /\ match outcome with
         | Ok (_, trail) =>
             exists r rest,
               trail = r :: rest
               /\ round_remaining r = candidates
               /\ round_tally r = irv_tally candidates ballots
               /\ round_total r = total1
               /\ round_total r <= sum (weights ballots)
               /\ (Forall (fun b => snd b <> []) ballots ->
                   round_total r = sum (weights ballots))
         | Raise e =>
             e = OverflowError /\ 2 ^ 53 <= sum (weights ballots)
         end.
Proof.
  destruct Hvalid as [_ Hall]. cbv zeta.
  assert (Hle : sum (values (irv_tally candidates ballots))
                <= sum (weights ballots)).
  { rewrite irv_tally_sum. apply sum_map_le.
    eapply Forall_impl; [|exact Hall].
    intros b [Hpos _]. apply counted_le. lia. }
  assert (Heq : Forall (fun b => snd b <> []) ballots ->
                sum (values (irv_tally candidates ballots))
                = sum (weights ballots)).
  { intros Hne. rewrite irv_tally_sum. apply sum_map_eq.
    rewrite Forall_forall in *. intros b Hb.
    destruct (Hall b Hb) as [_ [_ Hincl]]. apply counted_full; auto. }
  split; [exact Hle|]. split; [exact Heq|].
  destruct (irv_loop_spec ballots (length candidates) candidates [])
    as [out [Hout Hspec]]; [lia|].
  exists out. split; [exact Hout|].
  destruct out as [[w trail] | e].
  - destruct (irv_first_round _ _ _ _ Htwo Hout) as [rest ->].
    exists (round_of ballots candidates), rest.
    unfold round_of. cbn. auto 10.
  - split; [exact Hspec|].
    destruct (Z.lt_ge_cases (sum (weights ballots)) (2 ^ 53)) as [Hlt | Hge];
      [|exact Hge].
    exfalso.
    assert (Hw : Forall (fun b : ballot => 0 <= fst b) ballots).
    { eapply Forall_impl; [|exact Hall]. intros b [Hpos _]. lia. }
    destruct (irv_loop_returns ballots Hw Hlt (length candidates)
                candidates []) as [w [trail Hrun]]; [lia|].
    rewrite Hrun in Hout. discriminate.
Qed.

Lemma irv_round1_total_witness :
  (2 <= length demo_candidates)%nat
  /\ valid_ballots demo_candidates demo_ballots
  /\ exists r rest,
      irv_winner demo_candidates demo_ballots = Some (Ok (Chen, r :: rest))
      /\ round_total r = 28
      /\ round_total r = sum (weights demo_ballots).
Proof.
  assert (Htwo : (2 <= length demo_candidates)%nat) by (simpl; lia).
  assert (Hvalid : valid_ballots demo_candidates demo_ballots)
    by (apply valid_ballotsb_sound; reflexivity).
  split; [exact Htwo|]. split; [exact Hvalid|].
  destruct (irv_round1_total demo_candidates demo_ballots Htwo Hvalid)
    as [_ [_ [out [Hout Hfirst]]]].
  destruct out as [[w trail] | e].
  - destruct Hfirst as [r [rest [-> [_ [_ [Ht [_ Heq]]]]]]].
    exists r, rest. split; [|split].
    + rewrite Hout. vm_compute in Hout. injection Hout as <- _ _.
      reflexivity.
    + rewrite Ht. reflexivity.
    + apply Heq. repeat constructor; discriminate.
  - vm_compute in Hout. discriminate.
Defined.
